(** * Job dependency visualizer: a shallow embedding of [app.py]

    The development follows the pipeline of the program:
    rows of the input table -> [validate_dependencies] (a hard stop) ->
    [process_jobs_from_input] -> [build_dependency_graph] ->
    [assign_layers] -> [visualize_jobs], driven by [main].

    Python values are modelled as follows.
    - [str] is [string]; [str.split(',')] and [str.strip()] are written out.
    - a Python [dict] is an association list with unique keys kept in
      insertion order ([PyDict.set] keeps the position of a key that is
      already there), since the program iterates over its dictionaries.
    - [networkx.DiGraph] is a record of the three dictionaries the class
      keeps ([_node], [_succ], [_pred]).
    - an exception is a value of [exn] returned on the error side of [result]. *)

From Stdlib Require Import String Ascii List Arith Lia Bool ZArith.
From Stdlib Require Import Permutation.
From Stdlib Require Import Relations.
From Stdlib Require Import Sorted.
Import ListNotations.

Set Implicit Arguments.


(** ** Python strings *)

Module PyStr.

(** Truth value of a string: the empty string is falsy. *)
Definition truthy (s : string) : bool :=
  match s with
  | EmptyString => false
  | String _ _ => true
  end.

(** [s.split(sep)] for a one-character separator: a cut at every
    occurrence, so the result has one more token than [s] has separators. *)
Fixpoint split (sep : ascii) (s : string) : list string :=
  match s with
  | EmptyString => [EmptyString]
  | String c rest =>
      if Ascii.eqb c sep then EmptyString :: split sep rest
      else match split sep rest with
           | [] => [String c EmptyString]
           | tok :: toks => String c tok :: toks
           end
  end.

(** [sep.join(l)]. *)
Fixpoint join (sep : string) (l : list string) : string :=
  match l with
  | [] => EmptyString
  | [x] => x
  | x :: rest => (x ++ sep ++ join sep rest)%string
  end.

(** [c.isspace()] on the ASCII range: tab, line feed, vertical tab, form
    feed, carriage return, the four separators 28..31 and the space. *)
Definition isspace (c : ascii) : bool :=
  let n := nat_of_ascii c in
  ((9 <=? n) && (n <=? 13)) || ((28 <=? n) && (n <=? 31)) || (n =? 32).

Fixpoint lstrip (s : string) : string :=
  match s with
  | EmptyString => EmptyString
  | String c rest => if isspace c then lstrip rest else s
  end.

Fixpoint rstrip (s : string) : string :=
  match s with
  | EmptyString => EmptyString
  | String c rest =>
      match rstrip rest with
      | EmptyString => if isspace c then EmptyString else String c EmptyString
      | r => String c r
      end
  end.

(** [s.strip()]. *)
Definition strip (s : string) : string := rstrip (lstrip s).

(** [c in s] for a character. *)
Fixpoint contains (c : ascii) (s : string) : bool :=
  match s with
  | EmptyString => false
  | String d rest => Ascii.eqb d c || contains c rest
  end.

(** [x in l] for a list (or a set) of strings. *)
Definition mem (x : string) (l : list string) : bool :=
  existsb (String.eqb x) l.

End PyStr.

(** ** Python dictionaries *)

Module PyDict.

Definition dict (V : Type) := list (string * V).

Definition keys {V} (d : dict V) : list string := map fst d.

(** [d.get(k)] *)
Fixpoint get {V} (d : dict V) (k : string) : option V :=
  match d with
  | [] => None
  | (k', v) :: d' => if String.eqb k' k then Some v else get d' k
  end.

(** [k in d] *)
Definition has {V} (d : dict V) (k : string) : bool :=
  match get d k with Some _ => true | None => false end.

(** [d[k] = v]: a key that is present keeps its place. *)
Fixpoint set {V} (d : dict V) (k : string) (v : V) : dict V :=
  match d with
  | [] => [(k, v)]
  | (k', v') :: d' =>
      if String.eqb k' k then (k', v) :: d' else (k', v') :: set d' k v
  end.

(** [del d[k]] *)
Fixpoint del {V} (d : dict V) (k : string) : dict V :=
  match d with
  | [] => []
  | (k', v') :: d' =>
      if String.eqb k' k then d' else (k', v') :: del d' k
  end.

End PyDict.

(** ** Exceptions and results *)

Module Py.

(** The exceptions the modelled code can raise. *)
Inductive exn : Type :=
| KeyError
| ValueError
| RuntimeError
| UnboundLocalError
| NetworkXError
| NetworkXUnfeasible.

(** The outcome of a call: a value, a raised exception, or [OutOfFuel] when
    the bound put on a [while] loop is hit (shown unreachable below). *)
Inductive result (A : Type) : Type :=
| Ok (a : A)
| Raise (e : exn)
| OutOfFuel.

Arguments Ok {A} a.
Arguments Raise {A} e.
Arguments OutOfFuel {A}.

Definition bind {A B} (r : result A) (k : A -> result B) : result B :=
  match r with
  | Ok a => k a
  | Raise e => Raise e
  | OutOfFuel => OutOfFuel
  end.

(** The image of a result under a function of its value. *)
Definition fmap {A B} (f : A -> B) (r : result A) : result B :=
  match r with
  | Ok a => Ok (f a)
  | Raise e => Raise e
  | OutOfFuel => OutOfFuel
  end.

(** [max(l)]: [ValueError] on an empty sequence. *)
Definition max (l : list nat) : result nat :=
  match l with
  | [] => Raise ValueError
  | _ :: _ => Ok (list_max l)
  end.

End Py.

Notation "x <- r ;; k" := (Py.bind r (fun x => k))
  (at level 61, r at next level, right associativity).

(** ** networkx.DiGraph

    The program imports networkx; the part of it that [app.py] calls is
    written out here after the library's code: [DiGraph.add_node],
    [DiGraph.add_edge], the views [nodes], [edges], [in_degree],
    [predecessors], and [topological_sort], which yields the generations of
    [topological_generations] (Kahn's algorithm) one after the other. *)

Module NX.
Import PyDict Py.

(** The three dictionaries of a [DiGraph]: the attributes of each node (here
    the [label] attribute alone, absent for a node that [add_edge] created),
    and the successors and predecessors of each node. *)
Record DiGraph : Type := mkDiGraph {
  _node : dict (option string);
  _succ : dict (dict unit);
  _pred : dict (dict unit)
}.

Definition empty : DiGraph := mkDiGraph [] [] [].

(** [d[n]] for an adjacency dictionary; the empty dictionary stands for a
    missing node where the caller has checked membership. *)
Definition adj (d : dict (dict unit)) (n : string) : dict unit :=
  match get d n with
  | Some a => a
  | None => []
  end.

(** [G.add_node(n, label=l)] *)
Definition add_node (G : DiGraph) (n : string) (l : string) : DiGraph :=
  if has (_node G) n
  then mkDiGraph (set (_node G) n (Some l)) (_succ G) (_pred G)
  else mkDiGraph (set (_node G) n (Some l)) (set (_succ G) n []) (set (_pred G) n []).

(** The first lines of [add_edge], for one endpoint: a node that is not in
    [_succ] is created with no attribute. *)
Definition ensure_node (G : DiGraph) (n : string) : DiGraph :=
  if has (_succ G) n then G
  else mkDiGraph (set (_node G) n None) (set (_succ G) n []) (set (_pred G) n []).

(** [G.add_edge(u, v)] *)
Definition add_edge (G : DiGraph) (u v : string) : DiGraph :=
  let G1 := ensure_node (ensure_node G u) v in
  let succ' := set (_succ G1) u (set (adj (_succ G1) u) v tt) in
  let pred' := set (_pred G1) v (set (adj (_pred G1) v) u tt) in
  mkDiGraph (_node G1) succ' pred'.

(** [G.nodes()], in insertion order. *)
Definition nodes (G : DiGraph) : list string := keys (_node G).

(** [G.successors(n)] *)
Definition successors (G : DiGraph) (n : string) : list string := keys (adj (_succ G) n).

(** [G.predecessors(n)] *)
Definition predecessors (G : DiGraph) (n : string) : list string := keys (adj (_pred G) n).

(** [G.in_degree(n)] *)
Definition in_degree (G : DiGraph) (n : string) : nat := length (adj (_pred G) n).

(** [G.in_degree()]: the pairs (node, in-degree), over the keys of [_succ]. *)
Definition in_degree_view (G : DiGraph) : list (string * nat) :=
  map (fun n => (n, in_degree G n)) (keys (_succ G)).

(** [G.edges()] *)
Definition edges (G : DiGraph) : list (string * string) :=
  flat_map (fun '(u, nbrs) => map (fun v => (u, v)) (keys nbrs)) (_succ G).

(** *** topological_sort

    [topological_generations] keeps the nodes with a positive number of
    unvisited predecessors in [indegree_map] and the nodes that are ready in
    [zero_indegree]; one turn of its [while] loop visits a generation and
    yields it. *)

(** The body of [for child in G.neighbors(node)]. *)
Definition visit_child (st : dict nat * list string) (child : string)
  : result (dict nat * list string) :=
  let '(indegree_map, zero_indegree) := st in
  match get indegree_map child with
  | None => Raise RuntimeError
  | Some d =>
      let d' := d - 1 in
      if d' =? 0
      then Ok (del (set indegree_map child d') child, zero_indegree ++ [child])
      else Ok (set indegree_map child d', zero_indegree)
  end.

Fixpoint visit_children (children : list string) (st : dict nat * list string)
  : result (dict nat * list string) :=
  match children with
  | [] => Ok st
  | child :: rest => st' <- visit_child st child ;; visit_children rest st'
  end.

(** The body of [for node in this_generation]. *)
Definition visit_node (G : DiGraph) (st : dict nat * list string) (node : string)
  : result (dict nat * list string) :=
  if negb (has (_node G) node) then Raise RuntimeError
  else match get (_succ G) node with
       | None => Raise NetworkXError
       | Some nbrs => visit_children (keys nbrs) st
       end.

Fixpoint visit_generation (G : DiGraph) (gen : list string) (st : dict nat * list string)
  : result (dict nat * list string) :=
  match gen with
  | [] => Ok st
  | node :: rest => st' <- visit_node G st node ;; visit_generation G rest st'
  end.

(** The [while zero_indegree] loop and the test after it. The result is the
    list of the nodes yielded so far and how the generator ends: [Ok tt] when
    it is exhausted, [Raise e] when it raises. *)
Fixpoint generations (fuel : nat) (G : DiGraph)
    (indegree_map : dict nat) (zero_indegree : list string)
  : list string * result unit :=
  match zero_indegree with
  | [] =>
      match indegree_map with
      | [] => ([], Ok tt)
      | _ :: _ => ([], Raise NetworkXUnfeasible)
      end
  | _ :: _ =>
      match fuel with
      | O => ([], OutOfFuel)
      | S fuel' =>
          match visit_generation G zero_indegree (indegree_map, []) with
          | Ok (indegree_map', zero_indegree') =>
              let '(later, fin) := generations fuel' G indegree_map' zero_indegree' in
              (zero_indegree ++ later, fin)
          | Raise e => ([], Raise e)
          | OutOfFuel => ([], OutOfFuel)
          end
      end
  end.

(** [nx.topological_sort(G)], as the nodes it yields and how it ends. Every
    turn of the loop but the last removes a node from [indegree_map], so one
    turn more than it has entries is enough. *)
Definition topological_sort (G : DiGraph) : list string * result unit :=
  let indegree_map := filter (fun '(_, d) => 0 <? d) (in_degree_view G) in
  let zero_indegree :=
    map fst (filter (fun '(_, d) => d =? 0) (in_degree_view G)) in
  generations (S (length indegree_map)) G indegree_map zero_indegree.

(** *** Paths and cycles *)

Definition has_edge (G : DiGraph) (u v : string) : Prop := In (u, v) (edges G).

(** A cycle: a node that reaches itself along one edge or more (a self-loop
    is a cycle). *)
Definition has_cycle (G : DiGraph) : Prop :=
  exists v, clos_trans string (has_edge G) v v.

Definition acyclic (G : DiGraph) : Prop := ~ has_cycle G.

(** *** The invariant of the class

    The three dictionaries have the same keys in the same order, and
    [_pred] is [_succ] reversed. *)
Record wf (G : DiGraph) : Prop := mkWf {
  wf_succ_keys : keys (_succ G) = keys (_node G);
  wf_pred_keys : keys (_pred G) = keys (_node G);
  wf_nodes : NoDup (nodes G);
  wf_succ_nodup : forall u, NoDup (successors G u);
  wf_pred_nodup : forall v, NoDup (predecessors G v);
  wf_sym : forall u v, In v (successors G u) <-> In u (predecessors G v);
  wf_closed : forall u v, In v (successors G u) -> In u (nodes G) /\ In v (nodes G)
}.

End NX.

(** ** The program *)

Module App.
Import PyStr PyDict Py NX.

(** A row of the data frame once [dropna(subset=['ID', 'Name'])] has run:
    [ID] and [Name] hold a value, [Dependencies] may be missing ([None]). *)
Record Row : Type := mkRow {
  ID : string;
  Name : string;
  Dependencies : option string
}.

(** A job: [(job_id, job_name, dependencies)]. *)
Definition Job : Type := string * string * list string.

(** [row["Dependencies"].split(',') if row["Dependencies"] else []] *)
Definition dependencies_of (row : Row) : list string :=
  match Dependencies row with
  | Some text => if truthy text then split "," text else []
  | None => []
  end.

Definition process_jobs_from_input (jobs_df : list Row) : list Job :=
  map (fun row => (ID row, Name row, dependencies_of row)) jobs_df.

(** [[dep.strip() for dep in dependencies if dep.strip() not in job_ids]] *)
Definition invalid_deps (job_ids : list string) (dependencies : list string) : list string :=
  map strip (filter (fun dep => negb (mem (strip dep) job_ids)) dependencies).

Definition validate_row (job_ids : list string) (invalid_dependencies : dict (list string))
    (row : Row) : dict (list string) :=
  match invalid_deps job_ids (dependencies_of row) with
  | [] => invalid_dependencies
  | deps => set invalid_dependencies (ID row) deps
  end.

Definition validate_dependencies (jobs_df : list Row) : dict (list string) :=
  let job_ids := map ID jobs_df in
  fold_left (validate_row job_ids) jobs_df [].

(** The inner loop of [build_dependency_graph]. *)
Definition add_dependencies (G : DiGraph) (job_id : string) (dependencies : list string)
  : DiGraph :=
  fold_left (fun G dep => if truthy dep then add_edge G dep job_id else G) dependencies G.

Definition add_job (acc : DiGraph * dict string) (job : Job) : DiGraph * dict string :=
  let '(G, job_id_to_name) := acc in
  let '(job_id, job_name, dependencies) := job in
  (add_dependencies (add_node G job_id job_name) job_id dependencies,
   set job_id_to_name job_id job_name).

Definition build_dependency_graph (jobs : list Job) : DiGraph * dict string :=
  fold_left add_job jobs (NX.empty, []).

(** [layers[pred] for pred in G.predecessors(node)] *)
Fixpoint layers_of (layers : dict nat) (preds : list string) : result (list nat) :=
  match preds with
  | [] => Ok []
  | p :: rest =>
      match get layers p with
      | None => Raise KeyError
      | Some l => ls <- layers_of layers rest ;; Ok (l :: ls)
      end
  end.

(** The body of the loop of [assign_layers]. *)
Definition assign_node (G : DiGraph) (layers : dict nat) (node : string)
  : result (dict nat) :=
  match get (_pred G) node with
  | None => Raise NetworkXError
  | Some preds =>
      if length preds =? 0 then Ok (set layers node 0)
      else ls <- layers_of layers (keys preds) ;;
           m <- Py.max ls ;;
           Ok (set layers node (m + 1))
  end.

Fixpoint assign_nodes (G : DiGraph) (order : list string) (layers : dict nat)
  : result (dict nat) :=
  match order with
  | [] => Ok layers
  | node :: rest => layers' <- assign_node G layers node ;; assign_nodes G rest layers'
  end.

(** The loop runs its body on each node the generator yields; an exception
    with which the generator ends leaves the function after that. *)
Definition assign_layers (G : DiGraph) : result (dict nat) :=
  let '(yielded, fin) := topological_sort G in
  layers <- assign_nodes G yielded [] ;;
  _ <- fin ;;
  Ok layers.

(** *** Drawing *)

Definition orientations : list string :=
  ["Top to Bottom"; "Bottom to Top"; "Left to Right"; "Right to Left"]%string.

(** What [draw_layered_graph] hands to [nx.draw]. *)
Record Drawing : Type := mkDrawing {
  pos : dict (Z * Z);
  node_colors : list string;
  labels : dict string
}.

Definition base_colors : list string :=
  ["lightblue"; "lightgreen"; "salmon"; "grey"; "cyan"; "yellow"]%string.

(** [enumerate(l)] *)
Definition enumerate {A} (l : list A) : list (nat * A) := combine (seq 0 (length l)) l.

(** A dictionary comprehension [{node: f(i, node) for i, node in enumerate(ns)}]
    whose value may raise. *)
Fixpoint dict_of {V} (f : nat -> string -> result V) (ns : list (nat * string)) (d : dict V)
  : result (dict V) :=
  match ns with
  | [] => Ok d
  | (i, node) :: rest => v <- f i node ;; dict_of f rest (set d node v)
  end.

Fixpoint list_of {V} (f : string -> result V) (ns : list string) : result (list V) :=
  match ns with
  | [] => Ok []
  | node :: rest => v <- f node ;; vs <- list_of f rest ;; Ok (v :: vs)
  end.

(** [layers[node]] *)
Definition item (layers : dict nat) (node : string) : result nat :=
  match get layers node with
  | Some l => Ok l
  | None => Raise KeyError
  end.

(** The four branches on [orientation]; with any other string [pos] is left
    unbound ([None]). *)
Definition positions (G : DiGraph) (layers : dict nat) (orientation : string)
  : result (option (dict (Z * Z))) :=
  let ns := enumerate (nodes G) in
  if String.eqb orientation "Top to Bottom" then
    p <- dict_of (fun i node =>
           l <- item layers node ;; Ok (Z.of_nat i, (- Z.of_nat l)%Z)) ns [] ;;
    Ok (Some p)
  else if String.eqb orientation "Bottom to Top" then
    p <- dict_of (fun i node =>
           l <- item layers node ;; Ok (Z.of_nat i, Z.of_nat l)) ns [] ;;
    Ok (Some p)
  else if String.eqb orientation "Left to Right" then
    p <- dict_of (fun i node =>
           l <- item layers node ;; Ok (Z.of_nat l, (- Z.of_nat i)%Z)) ns [] ;;
    Ok (Some p)
  else if String.eqb orientation "Right to Left" then
    p <- dict_of (fun i node =>
           l <- item layers node ;; Ok ((- Z.of_nat l)%Z, (- Z.of_nat i)%Z)) ns [] ;;
    Ok (Some p)
  else Ok None.

(** [shuffle] stands for [random.shuffle]: the rearrangement the generator
    picks for this call. The use of an unbound [pos] in the call of [nx.draw]
    raises. *)
Definition draw_layered_graph (shuffle : list string -> list string)
    (G : DiGraph) (layers : dict nat) (job_id_to_name : dict string) (orientation : string)
  : result Drawing :=
  let layer_colors := shuffle base_colors in
  pos <- positions G layers orientation ;;
  node_colors <- list_of (fun node =>
      l <- item layers node ;;
      Ok (nth (l mod length layer_colors) layer_colors EmptyString)) (nodes G) ;;
  labels <- dict_of (fun _ node =>
      Ok (match get job_id_to_name node with Some name => name | None => node end))
      (enumerate (nodes G)) [] ;;
  match pos with
  | Some pos => Ok (mkDrawing pos node_colors labels)
  | None => Raise UnboundLocalError
  end.

(** *** The ordered table *)

(** [sorted(items, key=lambda x: x[1])]: a stable sort, so equal layers keep
    the order of the items. *)
Fixpoint insert_by_layer (x : string * nat) (l : list (string * nat)) : list (string * nat) :=
  match l with
  | [] => [x]
  | y :: rest => if snd x <=? snd y then x :: y :: rest else y :: insert_by_layer x rest
  end.

Definition sorted_by_layer (items : list (string * nat)) : list (string * nat) :=
  fold_right insert_by_layer [] items.

(** A row of the ordered table: (Layer, Job ID, Name); a job ID with no
    entry in [job_id_to_name] has no name (NaN). *)
Definition TableRow : Type := nat * string * option string.

Definition visualize_jobs (shuffle : list string -> list string)
    (jobs_df : list Row) (orientation : string) : result (list TableRow * Drawing) :=
  let jobs := process_jobs_from_input jobs_df in
  let '(G, job_id_to_name) := build_dependency_graph jobs in
  layers0 <- assign_layers G ;;
  let layers := map (fun '(node, layer) => (node, layer + 1)) layers0 in
  let ordered_jobs := sorted_by_layer layers in
  let ordered_jobs_df :=
    map (fun '(job_id, layer) => (layer, job_id, get job_id_to_name job_id)) ordered_jobs in
  drawing <- draw_layered_graph shuffle G layers job_id_to_name orientation ;;
  Ok (ordered_jobs_df, drawing).

(** *** main *)

(** A row of the table the editor returns: any cell may be empty. *)
Record RawRow : Type := mkRawRow {
  raw_ID : option string;
  raw_Name : option string;
  raw_Dependencies : option string
}.

(** [dropna(subset=['ID', 'Name'])] followed by [reset_index]. *)
Fixpoint dropna (rows : list RawRow) : list Row :=
  match rows with
  | [] => []
  | r :: rest =>
      match raw_ID r, raw_Name r with
      | Some i, Some n => mkRow i n (raw_Dependencies r) :: dropna rest
      | _, _ => dropna rest
      end
  end.

(** [st.session_state] *)
Record Session : Type := mkSession {
  jobs_df : list Row;
  jobs_updated : bool
}.

(** What one run of the script shows. *)
Inductive Shown : Type :=
| StError (message : string)
| StSuccess (message : string)
| StSubheader (text : string)
| StDataframe (table : list TableRow)
| StPyplot (drawing : Drawing).

Definition newline : string := String (ascii_of_nat 10) EmptyString.

Definition error_line (entry : string * list string) : string :=
  let '(job_id, deps) := entry in
  ("Job ID " ++ job_id ++ " has invalid dependencies: " ++ join ", " deps ++ newline)%string.

Definition error_message (invalid_dependencies : dict (list string)) : string :=
  fold_left (fun message entry => (message ++ error_line entry)%string)
    invalid_dependencies ("Invalid dependencies found:" ++ newline)%string.

(** [edited_jobs_df.empty or edited_jobs_df.isnull().all().all()]: a row that
    [dropna] kept has an ID, so only a frame with no row is all null. *)
Definition empty_or_all_null (df : list Row) : bool :=
  match df with
  | [] => true
  | _ :: _ => false
  end.

(** The block under [if st.button("Generate Graph")]. *)
Definition generate (session : Session) (edited : list RawRow) : Session * list Shown :=
  let edited_jobs_df := dropna edited in
  let invalid_dependencies := validate_dependencies edited_jobs_df in
  if empty_or_all_null edited_jobs_df then
    (session, [StError "Please enter job details and dependencies."])
  else
    match invalid_dependencies with
    | _ :: _ =>
        (mkSession (jobs_df session) false, [StError (error_message invalid_dependencies)])
    | [] =>
        (mkSession edited_jobs_df true, [StSuccess "Jobs updated successfully."])
    end.

(** The two calls of [visualize_jobs] in [main], as functions of the data
    frame and the orientation. *)
Definition Visualizer : Type := list Row -> string -> result (list TableRow * Drawing).

(** The block under [if st.session_state.get("jobs_updated")]: what it shows
    and how it ends. The table of the first call is shown before the second
    call runs. *)
Definition show_jobs (visualize1 visualize2 : Visualizer)
    (session : Session) (orientation : string) : list Shown * result unit :=
  if jobs_updated session then
    match visualize1 (jobs_df session) "Top to Bottom"%string with
    | Ok (ordered_jobs_df, _) =>
        let shown := [StSubheader "Ordered Jobs for Execution"; StDataframe ordered_jobs_df] in
        match visualize2 (jobs_df session) orientation with
        | Ok (_, drawing) => (shown ++ [StPyplot drawing], Ok tt)
        | Raise e => (shown, Raise e)
        | OutOfFuel => (shown, OutOfFuel)
        end
    | Raise e => ([], Raise e)
    | OutOfFuel => ([], OutOfFuel)
    end
  else ([], Ok tt).

(** One run of the script: [clicked] tells whether the button was pressed,
    [orientation] is the value of the select box. The session is returned
    also when the run ends in an exception, as it was stored before. *)
Definition script (visualize1 visualize2 : Visualizer)
    (session : Session) (edited : list RawRow) (clicked : bool) (orientation : string)
  : Session * list Shown * result unit :=
  let '(session', shown) :=
    if clicked then generate session edited else (session, []) in
  let '(shown', fin) := show_jobs visualize1 visualize2 session' orientation in
  (session', shown ++ shown', fin).

(** [main], with the rearrangements that [random.shuffle] picks in the two
    calls of [visualize_jobs]. *)
Definition main (shuffle1 shuffle2 : list string -> list string)
  : Session -> list RawRow -> bool -> string -> Session * list Shown * result unit :=
  script (visualize_jobs shuffle1) (visualize_jobs shuffle2).

End App.

(** ** Vocabulary of the specification *)

Module Spec.
Import PyStr PyDict Py NX App.

(** [toks] are the comma-separated tokens of [text]: joined by commas they
    give [text] back, and none of them holds a comma. *)
Definition comma_tokens (text : string) (toks : list string) : Prop :=
  join "," toks = text /\ Forall (fun tok => contains "," tok = false) toks.

(** The trimmed dependency tokens of a row that name no known job. *)
Definition invalid_tokens (jobs_df : list Row) (row : Row) : list string :=
  filter (fun tok => negb (mem tok (map ID jobs_df))) (map strip (dependencies_of row)).

(** The invalid tokens of the last row with this ID that has any. *)
Fixpoint last_report (jobs_df : list Row) (rows : list Row) (id : string)
  : option (list string) :=
  match rows with
  | [] => None
  | row :: rest =>
      match last_report jobs_df rest id with
      | Some toks => Some toks
      | None =>
          match invalid_tokens jobs_df row with
          | [] => None
          | toks => if String.eqb (ID row) id then Some toks else None
          end
      end
  end.

(** The name of the last row with this ID. *)
Fixpoint last_name (rows : list Row) (id : string) : option string :=
  match rows with
  | [] => None
  | row :: rest =>
      match last_name rest id with
      | Some n => Some n
      | None => if String.eqb (ID row) id then Some (Name row) else None
      end
  end.

(** A dependency list with every repeated token dropped (the first
    occurrence stays). *)
Fixpoint declare_once (seen : list string) (dependencies : list string) : list string :=
  match dependencies with
  | [] => []
  | dep :: rest =>
      if mem dep seen then declare_once seen rest
      else dep :: declare_once (dep :: seen) rest
  end.

End Spec.

(** ** Notions used in the proofs about topological_sort *)

Module Kahn.
Import PyStr PyDict Py NX.

(** [(u, v) in E] for a list of edges. *)
Definition edge_in (E : list (string * string)) (u v : string) : bool :=
  existsb (fun e => String.eqb (fst e) u && String.eqb (snd e) v) E.

(** The number of edges into [v] that are not in [E]: with [E] the edges
    already followed, the value [indegree_map] holds for [v]. *)
Definition remaining (G : DiGraph) (E : list (string * string)) (v : string) : nat :=
  length (filter (fun u => negb (edge_in E u v)) (predecessors G v)).

(** Every node of [order] comes after its predecessors, which are in [seen]
    or earlier in [order]. *)
Fixpoint ordered_from (G : DiGraph) (seen : list string) (order : list string) : Prop :=
  match order with
  | [] => True
  | v :: rest => incl (predecessors G v) seen /\ ordered_from G (seen ++ [v]) rest
  end.

(** The state of the loops inside one generation of topological_sort:
    [st] holds [indegree_map] and the new [zero_indegree], [E0] are the edges
    followed when the generation starts, [E] those followed by now. *)
Record inner (G : DiGraph) (E0 : list (string * string)) (st : dict nat * list string)
    (E : list (string * string)) : Prop := mkInner {
  in_keys : NoDup (keys (fst st));
  in_indegree : forall v, get (fst st) v =
                  if remaining G E v =? 0 then None else Some (remaining G E v);
  in_zero_nodup : NoDup (snd st);
  in_zero : forall v, In v (snd st) <-> remaining G E0 v <> 0 /\ remaining G E v = 0;
  in_mono : forall v, remaining G E v <= remaining G E0 v
}.

(** The state at the head of the [while] loop: [Y] are the nodes yielded,
    [Z] is [zero_indegree], [M] is [indegree_map], [E] the edges followed. *)
Record outer (G : DiGraph) (Y Z : list string) (M : dict nat)
    (E : list (string * string)) : Prop := mkOuter {
  out_edges : forall u v, In (u, v) E <-> In u Y /\ In v (successors G u);
  out_keys : NoDup (keys M);
  out_map : forall v, get M v =
              if remaining G E v =? 0 then None else Some (remaining G E v);
  out_nodup : NoDup (Y ++ Z);
  out_zero : forall v, In v (Y ++ Z) <-> In v (nodes G) /\ remaining G E v = 0
}.

(** Consecutive elements of [l] are related by [R]. *)
Fixpoint chain {A} (R : A -> A -> Prop) (l : list A) : Prop :=
  match l with
  | [] => True
  | x :: rest =>
      match rest with
      | [] => True
      | y :: _ => R x y /\ chain R rest
      end
  end.

End Kahn.

(** ** The layering the specification describes *)

Module Layering.
Import PyDict Py NX App.

(** [layers] gives [v] what the loop body computes for it from the layers
    of its predecessors, all of which have one. *)
Definition layered (G : DiGraph) (layers : dict nat) (v : string) : Prop :=
  exists lv ls,
    get layers v = Some lv /\
    layers_of layers (predecessors G v) = Ok ls /\
    lv = match ls with [] => 0 | _ :: _ => list_max ls + 1 end.

(** [l] is the greatest layer among the predecessors of [v]. *)
Definition max_pred_layer (G : DiGraph) (layers : dict nat) (v : string) (l : nat) : Prop :=
  (exists u, has_edge G u v /\ get layers u = Some l) /\
  (forall u, has_edge G u v -> exists lu, get layers u = Some lu /\ lu <= l).

(** The ordered table, from [job_id_to_name] and the layers before the
    offset. *)
Definition ordered_table (names : dict string) (layers0 : dict nat) : list TableRow :=
  map (fun '(job_id, layer) => (layer, job_id, get names job_id))
    (sorted_by_layer (map (fun '(node, layer) => (node, layer + 1)) layers0)).

End Layering.

(** ** The scenarios of the specification and other inputs used below *)

Module Scenarios.
Import App.
Open Scope string_scope.

(** Scenario A: a chain. *)
Definition scenario_A : list Row :=
  [mkRow "A" "Compile" (Some ""); mkRow "B" "Link" (Some "A"); mkRow "C" "Test" (Some "B")].

(** Scenario B: a dependency on a job that is not defined. *)
Definition scenario_B : list Row := [mkRow "X" "Bad" (Some "Y")].

(** Scenario C: a cycle. *)
Definition scenario_C : list Row :=
  [mkRow "A" "a" (Some "B"); mkRow "B" "b" (Some "A")].

(** Scenario D: a job with two dependencies. *)
Definition scenario_D : list Row :=
  [mkRow "A" "a" (Some ""); mkRow "B" "b" (Some ""); mkRow "C" "c" (Some "A,B")].

(** Scenario D with a space after the comma. *)
Definition spaced_D : list Row :=
  [mkRow "A" "a" (Some ""); mkRow "B" "b" (Some ""); mkRow "C" "c" (Some "A, B")].

(** Two rows with the same ID. *)
Definition repeated_id : list Row :=
  [mkRow "A" "first" None; mkRow "B" "b" (Some "A"); mkRow "A" "second" None].

(** What [visualize_jobs] returns on [spaced_D], top to bottom, with the
    colours in their first order. *)
Definition spaced_D_table : list TableRow :=
  [(1, "A", Some "a"); (1, "B", Some "b"); (1, " B", None); (2, "C", Some "c")].

Definition spaced_D_drawing : Drawing :=
  mkDrawing
    [("A", (0, -1)); ("B", (1, -1)); ("C", (2, -2)); (" B", (3, -1))]%Z
    ["lightgreen"; "lightgreen"; "salmon"; "lightgreen"]
    [("A", "a"); ("B", "b"); ("C", "c"); (" B", " B")].

(** The rows of a data frame as the editor returns them, all cells filled
    but the dependencies that are missing. *)
Definition edited_from (rows : list Row) : list RawRow :=
  map (fun row => mkRawRow (Some (ID row)) (Some (Name row)) (Dependencies row)) rows.

(** The layers of Scenario A after the offset, and its drawing from left to
    right with the colours in their first order. *)
Definition scenario_A_shifted : list (string * nat) := [("A", 1); ("B", 2); ("C", 3)].

Definition scenario_A_drawing : Drawing :=
  mkDrawing
    [("A", (1, 0)); ("B", (2, -1)); ("C", (3, -2))]%Z
    ["lightgreen"; "salmon"; "grey"]
    [("A", "Compile"); ("B", "Link"); ("C", "Test")].

(** A rank for the nodes named by one capital letter. *)
Definition letter_rank (v : string) : nat :=
  match v with
  | String c _ => Ascii.nat_of_ascii c
  | EmptyString => 0
  end.

Close Scope string_scope.
End Scenarios.

(** ** Dependency chains *)

Module Paths.
Import NX.

(** [walk G k u v]: a chain of [k] edges of [G] leads from [u] to [v]. *)
Inductive walk (G : DiGraph) : nat -> string -> string -> Prop :=
| walk_here (v : string) : walk G 0 v v
| walk_edge (k : nat) (u w v : string) :
    has_edge G u w -> walk G k w v -> walk G (S k) u v.

End Paths.

(** ** The order of the ordered table *)

Module TableOrder.

(** The key of [sorted]: an item is before another when its layer is not
    greater. *)
Definition by_layer (x y : string * nat) : Prop := snd x <= snd y.

End TableOrder.

(** * Facts about the model *)

Import PyStr PyDict Py NX App.

Unset Implicit Arguments.

(** ** Strings *)

Lemma mem_In x l : mem x l = true <-> In x l.
Proof.
  unfold mem. rewrite existsb_exists. split.
  - intros [y [Hy He]]. apply String.eqb_eq in He. now subst.
  - intros H. exists x. split; [assumption | apply String.eqb_refl].
Qed.

Lemma mem_false x l : mem x l = false <-> ~ In x l.
Proof.
  rewrite <- mem_In. destruct (mem x l); split; congruence.
Qed.

Lemma split_nonempty sep s : split sep s <> [].
Proof.
  destruct s as [|c r]; simpl; [discriminate|].
  destruct (Ascii.eqb c sep); [discriminate|].
  destruct (split sep r); discriminate.
Qed.

(** Joining the tokens with the separator gives the text back. *)
Lemma join_split sep s : join (String sep EmptyString) (split sep s) = s.
Proof.
  induction s as [|c r IH]; simpl; [reflexivity|].
  destruct (Ascii.eqb_spec c sep) as [->|Hne].
  - pose proof (split_nonempty sep r) as Hn.
    destruct (split sep r) as [|t ts]; [congruence|].
    simpl. simpl in IH. now rewrite IH.
  - pose proof (split_nonempty sep r) as Hn.
    destruct (split sep r) as [|t ts]; [congruence|].
    destruct ts as [|t' ts]; simpl in *; now rewrite IH.
Qed.

(** No token holds the separator. *)
Lemma split_no_sep sep s :
  Forall (fun tok => contains sep tok = false) (split sep s).
Proof.
  induction s as [|c r IH]; simpl.
  - constructor; [reflexivity | constructor].
  - destruct (Ascii.eqb_spec c sep) as [->|Hne].
    + constructor; [reflexivity | assumption].
    + pose proof (split_nonempty sep r) as Hn.
      destruct (split sep r) as [|t ts]; [congruence|].
      inversion IH; subst. constructor; [|assumption].
      simpl. destruct (Ascii.eqb_spec c sep); [contradiction|]. assumption.
Qed.

(** ** Dictionaries *)

Section DictFacts.
Context {V : Type}.
Implicit Types (d : dict V) (k : string) (v : V).

Lemma set_not_nil d k v : set d k v <> [].
Proof. destruct d as [|[k' v'] d]; simpl; [|destruct (String.eqb k' k)]; discriminate. Qed.

Lemma get_set_same d k v : get (set d k v) k = Some v.
Proof.
  induction d as [|[k' v'] d IH]; simpl.
  - now rewrite String.eqb_refl.
  - destruct (String.eqb k' k) eqn:E; simpl; rewrite E; auto.
Qed.

Lemma get_set_other d k k' v : k <> k' -> get (set d k v) k' = get d k'.
Proof.
  intros Hne. induction d as [|[k0 v0] d IH]; simpl.
  - apply String.eqb_neq in Hne. now rewrite Hne.
  - destruct (String.eqb_spec k0 k) as [->|Hk]; simpl.
    + apply String.eqb_neq in Hne. now rewrite Hne.
    + now rewrite IH.
Qed.

Lemma get_set d k k' v :
  get (set d k v) k' = if String.eqb k k' then Some v else get d k'.
Proof.
  destruct (String.eqb_spec k k') as [->|Hne].
  - apply get_set_same.
  - now apply get_set_other.
Qed.

Lemma get_Some_In d k v : get d k = Some v -> In (k, v) d.
Proof.
  induction d as [|[k' v'] d IH]; simpl; [discriminate|].
  destruct (String.eqb_spec k' k) as [->|Hne].
  - intros [= ->]. now left.
  - intros H. right. auto.
Qed.

Lemma get_None_keys d k : get d k = None <-> ~ In k (keys d).
Proof.
  induction d as [|[k' v'] d IH]; simpl.
  - tauto.
  - destruct (String.eqb_spec k' k) as [->|Hne].
    + split; [discriminate | intros H; exfalso; apply H; now left].
    + rewrite IH. tauto.
Qed.

Lemma has_keys d k : has d k = true <-> In k (keys d).
Proof.
  unfold has. pose proof (get_None_keys d k) as H.
  destruct (get d k).
  - split; [|reflexivity]. intros _.
    destruct (in_dec string_dec k (keys d)) as [Hi|Hn]; [assumption|].
    apply H in Hn. discriminate.
  - split; [discriminate|]. intros Hi. exfalso. now apply H.
Qed.

Lemma has_false_keys d k : has d k = false <-> ~ In k (keys d).
Proof.
  rewrite <- has_keys. destruct (has d k); split; congruence.
Qed.

Lemma In_get_NoDup d k v : NoDup (keys d) -> In (k, v) d -> get d k = Some v.
Proof.
  induction d as [|[k' v'] d IH]; simpl; [tauto|].
  intros Hnd [Heq|Hin].
  - injection Heq as -> ->. now rewrite String.eqb_refl.
  - inversion Hnd as [|? ? Hni Hnd']; subst.
    destruct (String.eqb_spec k' k) as [->|Hne].
    + exfalso. apply Hni. change k with (fst (k, v)). now apply in_map.
    + auto.
Qed.

(** Setting a key that is present leaves the keys as they are. *)
Lemma keys_set_present d k v : In k (keys d) -> keys (set d k v) = keys d.
Proof.
  induction d as [|[k' v'] d IH]; simpl; [tauto|].
  destruct (String.eqb_spec k' k) as [->|Hne]; simpl; [reflexivity|].
  intros [H|H]; [congruence|]. now rewrite IH.
Qed.

(** Setting a new key appends it. *)
Lemma keys_set_absent d k v : ~ In k (keys d) -> keys (set d k v) = keys d ++ [k].
Proof.
  induction d as [|[k' v'] d IH]; simpl; [reflexivity|].
  intros Hn. destruct (String.eqb_spec k' k) as [->|Hne]; simpl.
  - exfalso. apply Hn. now left.
  - rewrite IH; [reflexivity|]. tauto.
Qed.

Lemma set_absent d k v : ~ In k (keys d) -> set d k v = d ++ [(k, v)].
Proof.
  induction d as [|[k' v'] d IH]; simpl; [reflexivity|].
  intros Hn. destruct (String.eqb_spec k' k) as [->|Hne]; simpl.
  - exfalso. apply Hn. now left.
  - rewrite IH; [reflexivity|]. tauto.
Qed.

(** Storing again the value a key already has changes nothing. *)
Lemma set_same_value d k v : get d k = Some v -> set d k v = d.
Proof.
  induction d as [|[k' v'] d IH]; simpl; [discriminate|].
  destruct (String.eqb_spec k' k) as [->|Hne].
  - now intros [= ->].
  - intros H. now rewrite IH.
Qed.

Lemma In_keys_set d k k' v : In k' (keys (set d k v)) <-> k' = k \/ In k' (keys d).
Proof.
  destruct (in_dec string_dec k (keys d)) as [Hi|Hn].
  - rewrite keys_set_present by assumption. split; [tauto|].
    intros [->|H]; assumption.
  - rewrite keys_set_absent by assumption. rewrite in_app_iff. simpl.
    split; intros H; intuition congruence.
Qed.

Lemma NoDup_keys_set d k v : NoDup (keys d) -> NoDup (keys (set d k v)).
Proof.
  intros Hnd. destruct (in_dec string_dec k (keys d)) as [Hi|Hn].
  - now rewrite keys_set_present.
  - rewrite keys_set_absent by assumption.
    apply NoDup_app; [assumption | repeat constructor; simpl; tauto |].
    intros x Hx [<-|[]]. contradiction.
Qed.

Lemma get_del_same d k : NoDup (keys d) -> get (del d k) k = None.
Proof.
  induction d as [|[k' v'] d IH]; simpl; [reflexivity|].
  intros Hnd. inversion Hnd as [|? ? Hni Hnd']; subst.
  destruct (String.eqb_spec k' k) as [->|Hne].
  - now apply get_None_keys.
  - simpl. destruct (String.eqb_spec k' k); [contradiction|]. auto.
Qed.

Lemma get_del_other d k k' : k <> k' -> get (del d k) k' = get d k'.
Proof.
  intros Hne. induction d as [|[k0 v0] d IH]; simpl; [reflexivity|].
  destruct (String.eqb_spec k0 k) as [->|Hk]; simpl.
  - apply String.eqb_neq in Hne. now rewrite Hne.
  - now rewrite IH.
Qed.

Lemma In_keys_del d k k' : NoDup (keys d) -> In k' (keys (del d k)) <-> k' <> k /\ In k' (keys d).
Proof.
  induction d as [|[k0 v0] d IH]; simpl; [tauto|].
  intros Hnd. inversion Hnd as [|? ? Hni Hnd']; subst.
  destruct (String.eqb_spec k0 k) as [->|Hk]; simpl.
  - split.
    + intros H. split; [|now right]. intros ->. contradiction.
    + intros [Hne [H|H]]; [congruence | assumption].
  - rewrite IH by assumption. split.
    + intros [<-|[H1 H2]]; [split; [assumption | now left] | split; [assumption | now right]].
    + intros [H1 [H2|H2]]; [now left | right; tauto].
Qed.

Lemma NoDup_keys_del d k : NoDup (keys d) -> NoDup (keys (del d k)).
Proof.
  induction d as [|[k0 v0] d IH]; simpl; [constructor|].
  intros Hnd. inversion Hnd as [|? ? Hni Hnd']; subst.
  destruct (String.eqb_spec k0 k) as [->|Hk]; simpl; [assumption|].
  constructor; [|auto]. intros H. apply In_keys_del in H; tauto.
Qed.

Lemma length_del d k : In k (keys d) -> S (length (del d k)) = length d.
Proof.
  induction d as [|[k0 v0] d IH]; simpl; [tauto|].
  destruct (String.eqb_spec k0 k) as [->|Hk]; simpl; [reflexivity|].
  intros [H|H]; [congruence|]. now rewrite IH.
Qed.

End DictFacts.

(** ** The parser and the validator *)

Import Spec.

Lemma invalid_deps_tokens jobs_df row :
  invalid_deps (map ID jobs_df) (dependencies_of row) = invalid_tokens jobs_df row.
Proof.
  unfold invalid_deps, invalid_tokens.
  induction (dependencies_of row) as [|dep deps IH]; simpl; [reflexivity|].
  destruct (negb (mem (strip dep) (map ID jobs_df))); simpl; now rewrite IH.
Qed.

Lemma dependencies_of_tokens row :
  match Dependencies row with
  | Some (String c text) => comma_tokens (String c text) (dependencies_of row)
  | _ => dependencies_of row = []
  end.
Proof.
  unfold dependencies_of. destruct (Dependencies row) as [[|c text]|]; simpl; try reflexivity.
  split.
  - apply (join_split "," (String c text)).
  - apply (split_no_sep "," (String c text)).
Qed.

Lemma validate_row_cases jobs_df acc row :
  validate_row (map ID jobs_df) acc row =
    match invalid_tokens jobs_df row with
    | [] => acc
    | toks => set acc (ID row) toks
    end.
Proof. unfold validate_row. now rewrite invalid_deps_tokens. Qed.

Lemma validate_fold_nil jobs_df rows acc :
  fold_left (validate_row (map ID jobs_df)) rows acc = [] <->
  acc = [] /\ forall row, In row rows -> invalid_tokens jobs_df row = [].
Proof.
  revert acc. induction rows as [|row rows IH]; intros acc; simpl.
  - split; [intros ->; split; [reflexivity | tauto] | tauto].
  - rewrite IH, validate_row_cases. split.
    + intros [Hacc Hall]. destruct (invalid_tokens jobs_df row) as [|t ts] eqn:E.
      * split; [assumption|]. intros r [<-|Hr]; auto.
      * exfalso. exact (set_not_nil _ _ _ Hacc).
    + intros [-> Hall]. rewrite (Hall row (or_introl eq_refl)). split; auto.
Qed.

Lemma validate_fold_get jobs_df rows acc id :
  get (fold_left (validate_row (map ID jobs_df)) rows acc) id =
    match last_report jobs_df rows id with
    | Some toks => Some toks
    | None => get acc id
    end.
Proof.
  revert acc. induction rows as [|row rows IH]; intros acc; simpl; [reflexivity|].
  rewrite IH, validate_row_cases.
  destruct (last_report jobs_df rows id); [reflexivity|].
  destruct (invalid_tokens jobs_df row) as [|t ts]; [reflexivity|].
  rewrite get_set. now destruct (String.eqb (ID row) id).
Qed.

Lemma last_report_Some jobs_df rows id toks :
  last_report jobs_df rows id = Some toks ->
  exists row, In row rows /\ ID row = id /\ invalid_tokens jobs_df row = toks /\ toks <> [].
Proof.
  induction rows as [|row rows IH]; simpl; [discriminate|].
  destruct (last_report jobs_df rows id) as [toks'|].
  - intros [= ->]. destruct (IH eq_refl) as [r [? ?]]. exists r. tauto.
  - destruct (invalid_tokens jobs_df row) as [|t ts] eqn:E; [discriminate|].
    destruct (String.eqb_spec (ID row) id) as [Hid|]; [|discriminate].
    intros [= <-]. exists row. repeat split; auto. discriminate.
Qed.

Lemma last_report_None jobs_df rows id :
  last_report jobs_df rows id = None <->
  forall row, In row rows -> ID row = id -> invalid_tokens jobs_df row = [].
Proof.
  induction rows as [|row rows IH]; simpl; [tauto|].
  destruct (last_report jobs_df rows id) as [toks'|] eqn:E.
  - split; [discriminate|]. intros H.
    destruct (last_report_Some _ _ _ _ E) as [r [Hr [Hid [Ht Hn]]]].
    exfalso. apply Hn. rewrite <- Ht. auto.
  - destruct IH as [IH _]. specialize (IH eq_refl).
    destruct (invalid_tokens jobs_df row) as [|t ts] eqn:Et.
    + split; [|reflexivity]. intros _ r [<-|Hr] Hid; auto.
    + destruct (String.eqb_spec (ID row) id) as [Hid|Hne].
      * split; [discriminate|]. intros H. specialize (H row (or_introl eq_refl) Hid).
        congruence.
      * split; [|reflexivity]. intros _ r [<-|Hr] Hid; [contradiction | auto].
Qed.

Lemma last_report_unique jobs_df rows row :
  NoDup (map ID rows) -> In row rows ->
  last_report jobs_df rows (ID row) =
    match invalid_tokens jobs_df row with
    | [] => None
    | toks => Some toks
    end.
Proof.
  intros Hnd Hin.
  destruct (last_report jobs_df rows (ID row)) as [toks|] eqn:E.
  - destruct (last_report_Some _ _ _ _ E) as [r [Hr [Hid [Ht Hn]]]].
    assert (r = row) as ->.
    { clear - Hnd Hin Hr Hid. induction rows as [|x xs IH]; [contradiction|].
      simpl in Hnd. inversion Hnd as [|? ? Hni Hnd']; subst.
      destruct Hin as [->|Hin], Hr as [->|Hr]; auto.
      - exfalso. apply Hni. rewrite <- Hid. now apply in_map.
      - exfalso. apply Hni. rewrite Hid. now apply in_map. }
    rewrite Ht. destruct toks; [congruence | reflexivity].
  - rewrite last_report_None in E. now rewrite (E row Hin eq_refl).
Qed.

(** ** The graph class keeps its invariant *)

Lemma adj_set d k a k' :
  adj (set d k a) k' = if String.eqb k k' then a else adj d k'.
Proof. unfold adj. rewrite get_set. now destruct (String.eqb k k'). Qed.

Lemma adj_absent d k : ~ In k (keys d) -> adj d k = [].
Proof. intros H. unfold adj. apply get_None_keys in H. now rewrite H. Qed.

Lemma wf_empty : wf NX.empty.
Proof.
  constructor; simpl; auto; try constructor; try tauto.
Qed.

(** A node created with empty adjacency: what [add_node] and [add_edge] do
    with a node they meet for the first time. *)
Lemma wf_new_node G n a :
  wf G -> ~ In n (nodes G) ->
  wf (mkDiGraph (set (_node G) n a) (set (_succ G) n []) (set (_pred G) n [])).
Proof.
  intros [Hs Hp Hn Hsn Hpn Hsym Hcl] Hni. unfold nodes in *.
  assert (Hadj_s : forall u, adj (set (_succ G) n []) u = adj (_succ G) u).
  { intros u. rewrite adj_set. destruct (String.eqb_spec n u) as [<-|]; [|reflexivity].
    symmetry. apply adj_absent. now rewrite Hs. }
  assert (Hadj_p : forall u, adj (set (_pred G) n []) u = adj (_pred G) u).
  { intros u. rewrite adj_set. destruct (String.eqb_spec n u) as [<-|]; [|reflexivity].
    symmetry. apply adj_absent. now rewrite Hp. }
  constructor; unfold nodes, successors, predecessors in *; simpl.
  - rewrite !keys_set_absent by (rewrite ?Hs; assumption). now rewrite Hs.
  - rewrite !keys_set_absent by (rewrite ?Hp; assumption). now rewrite Hp.
  - now apply NoDup_keys_set.
  - intros u. rewrite Hadj_s. apply Hsn.
  - intros v. rewrite Hadj_p. apply Hpn.
  - intros u v. rewrite Hadj_s, Hadj_p. apply Hsym.
  - intros u v. rewrite Hadj_s. intros H. destruct (Hcl u v H) as [H1 H2].
    rewrite !In_keys_set. tauto.
Qed.

Lemma add_node_wf G n l : wf G -> wf (add_node G n l).
Proof.
  intros Hwf. unfold add_node. destruct (has (_node G) n) eqn:E.
  - apply has_keys in E. destruct Hwf as [Hs Hp Hn Hsn Hpn Hsym Hcl].
    constructor; unfold nodes, successors, predecessors in *; simpl;
      rewrite ?keys_set_present by assumption; auto.
  - apply has_false_keys in E. now apply wf_new_node.
Qed.

Lemma add_node_successors G n l u : wf G -> successors (add_node G n l) u = successors G u.
Proof.
  intros Hwf. unfold add_node, successors. destruct (has (_node G) n) eqn:E; simpl; [reflexivity|].
  apply has_false_keys in E. rewrite adj_set.
  destruct (String.eqb_spec n u) as [<-|]; [|reflexivity].
  rewrite adj_absent; [reflexivity|]. now rewrite (wf_succ_keys Hwf).
Qed.

Lemma add_node_predecessors G n l u : wf G -> predecessors (add_node G n l) u = predecessors G u.
Proof.
  intros Hwf. unfold add_node, predecessors. destruct (has (_node G) n) eqn:E; simpl; [reflexivity|].
  apply has_false_keys in E. rewrite adj_set.
  destruct (String.eqb_spec n u) as [<-|]; [|reflexivity].
  rewrite adj_absent; [reflexivity|]. now rewrite (wf_pred_keys Hwf).
Qed.

Lemma add_node_nodes G n l x : In x (nodes (add_node G n l)) <-> x = n \/ In x (nodes G).
Proof.
  unfold add_node, nodes. destruct (has (_node G) n); simpl; apply In_keys_set.
Qed.

Lemma ensure_node_wf G n : wf G -> wf (ensure_node G n).
Proof.
  intros Hwf. unfold ensure_node. destruct (has (_succ G) n) eqn:E; [assumption|].
  apply has_false_keys in E. rewrite (wf_succ_keys Hwf) in E. now apply wf_new_node.
Qed.

Lemma ensure_node_successors G n u : wf G -> successors (ensure_node G n) u = successors G u.
Proof.
  intros Hwf. unfold ensure_node, successors. destruct (has (_succ G) n) eqn:E; simpl; [reflexivity|].
  apply has_false_keys in E. rewrite adj_set.
  destruct (String.eqb_spec n u) as [<-|]; [|reflexivity].
  now rewrite adj_absent.
Qed.

Lemma ensure_node_predecessors G n u : wf G -> predecessors (ensure_node G n) u = predecessors G u.
Proof.
  intros Hwf. unfold ensure_node, predecessors. destruct (has (_succ G) n) eqn:E; simpl; [reflexivity|].
  apply has_false_keys in E. rewrite adj_set.
  destruct (String.eqb_spec n u) as [<-|]; [|reflexivity].
  rewrite adj_absent; [reflexivity|]. now rewrite (wf_pred_keys Hwf), <- (wf_succ_keys Hwf).
Qed.

Lemma ensure_node_nodes G n x :
  wf G -> In x (nodes (ensure_node G n)) <-> x = n \/ In x (nodes G).
Proof.
  intros Hwf. unfold ensure_node, nodes. destruct (has (_succ G) n) eqn:E; simpl.
  - apply has_keys in E. rewrite (wf_succ_keys Hwf) in E. split; [tauto|].
    intros [->|H]; assumption.
  - apply In_keys_set.
Qed.

Lemma add_edge_successors G u v x y :
  wf G ->
  In y (successors (add_edge G u v) x) <-> In y (successors G x) \/ (x = u /\ y = v).
Proof.
  intros Hwf. unfold add_edge, successors at 1. simpl. rewrite adj_set.
  set (G1 := ensure_node (ensure_node G u) v).
  assert (H1 : forall z, successors G1 z = successors G z).
  { intros z. unfold G1. rewrite !ensure_node_successors; auto using ensure_node_wf. }
  destruct (String.eqb_spec u x) as [<-|Hne].
  - rewrite In_keys_set. fold (successors G1 u). rewrite H1. intuition congruence.
  - fold (successors G1 x). rewrite H1. intuition congruence.
Qed.

Lemma add_edge_predecessors G u v x y :
  wf G ->
  In x (predecessors (add_edge G u v) y) <-> In x (predecessors G y) \/ (x = u /\ y = v).
Proof.
  intros Hwf. unfold add_edge, predecessors at 1. simpl. rewrite adj_set.
  set (G1 := ensure_node (ensure_node G u) v).
  assert (H1 : forall z, predecessors G1 z = predecessors G z).
  { intros z. unfold G1. rewrite !ensure_node_predecessors; auto using ensure_node_wf. }
  destruct (String.eqb_spec v y) as [<-|Hne].
  - rewrite In_keys_set. fold (predecessors G1 v). rewrite H1. intuition congruence.
  - fold (predecessors G1 y). rewrite H1. intuition congruence.
Qed.

Lemma add_edge_nodes G u v x :
  wf G -> In x (nodes (add_edge G u v)) <-> x = u \/ x = v \/ In x (nodes G).
Proof.
  intros Hwf.
  change (nodes (add_edge G u v)) with (nodes (ensure_node (ensure_node G u) v)).
  rewrite ensure_node_nodes by auto using ensure_node_wf.
  rewrite ensure_node_nodes by assumption. tauto.
Qed.

Lemma add_edge_wf G u v : wf G -> wf (add_edge G u v).
Proof.
  intros Hwf.
  pose proof (add_edge_successors G u v) as HS.
  pose proof (add_edge_predecessors G u v) as HP.
  pose proof (add_edge_nodes G u v) as HN.
  assert (Hwf1 : wf (ensure_node (ensure_node G u) v)) by auto using ensure_node_wf.
  assert (Hu : In u (nodes (ensure_node (ensure_node G u) v))).
  { rewrite !ensure_node_nodes; auto using ensure_node_wf. }
  assert (Hv : In v (nodes (ensure_node (ensure_node G u) v))).
  { rewrite !ensure_node_nodes; auto using ensure_node_wf. }
  set (G1 := ensure_node (ensure_node G u) v) in *.
  constructor.
  - unfold add_edge. fold G1. simpl. rewrite keys_set_present; [apply (wf_succ_keys Hwf1)|].
    now rewrite (wf_succ_keys Hwf1).
  - unfold add_edge. fold G1. simpl. rewrite keys_set_present; [apply (wf_pred_keys Hwf1)|].
    now rewrite (wf_pred_keys Hwf1).
  - unfold add_edge. fold G1. unfold nodes. simpl. apply (wf_nodes Hwf1).
  - intros x. unfold add_edge, successors. fold G1. simpl. rewrite adj_set.
    destruct (String.eqb u x); [apply NoDup_keys_set|]; apply (wf_succ_nodup Hwf1).
  - intros x. unfold add_edge, predecessors. fold G1. simpl. rewrite adj_set.
    destruct (String.eqb v x); [apply NoDup_keys_set|]; apply (wf_pred_nodup Hwf1).
  - intros x y. rewrite HS, HP by assumption. rewrite (wf_sym Hwf). tauto.
  - intros x y. rewrite HS by assumption. rewrite !HN by assumption.
    intros [H|[-> ->]]; [|tauto]. destruct (wf_closed Hwf _ _ H). tauto.
Qed.

Lemma add_dependencies_wf deps G job_id : wf G -> wf (add_dependencies G job_id deps).
Proof.
  unfold add_dependencies. revert G.
  induction deps as [|dep deps IH]; intros G Hwf; simpl; [assumption|].
  apply IH. destruct (truthy dep); auto using add_edge_wf.
Qed.

Lemma add_job_wf acc job : wf (fst acc) -> wf (fst (add_job acc job)).
Proof.
  destruct acc as [G names], job as [[job_id job_name] deps]. simpl.
  intros Hwf. apply add_dependencies_wf. now apply add_node_wf.
Qed.

Lemma fold_add_job_wf jobs acc : wf (fst acc) -> wf (fst (fold_left add_job jobs acc)).
Proof.
  revert acc. induction jobs as [|job jobs IH]; intros acc Hwf; simpl; [assumption|].
  apply IH. now apply add_job_wf.
Qed.

(** Every graph the program builds satisfies the invariant. *)
Lemma build_dependency_graph_wf jobs : wf (fst (build_dependency_graph jobs)).
Proof. apply fold_add_job_wf. apply wf_empty. Qed.

(** [G.edges()] lists the pairs (node, successor). *)
Lemma In_edges_of (S : dict (dict unit)) u v :
  NoDup (keys S) ->
  In (u, v) (flat_map (fun '(u, nbrs) => map (fun v => (u, v)) (keys nbrs)) S) <->
  In v (keys (adj S u)).
Proof.
  intros Hnd. rewrite in_flat_map. split.
  - intros [[u' nbrs] [Hin Hm]]. apply in_map_iff in Hm. destruct Hm as [v' [[= -> ->] Hv]].
    unfold adj. now rewrite (In_get_NoDup _ _ _ Hnd Hin).
  - intros Hv. unfold adj in Hv. destruct (get S u) as [nbrs|] eqn:E; [|contradiction].
    exists (u, nbrs). split; [now apply get_Some_In|]. apply in_map_iff. now exists v.
Qed.

Lemma has_edge_successors G u v : wf G -> has_edge G u v <-> In v (successors G u).
Proof.
  intros Hwf. unfold has_edge, edges, successors. apply In_edges_of.
  rewrite (wf_succ_keys Hwf). apply (wf_nodes Hwf).
Qed.

Lemma has_edge_predecessors G u v : wf G -> has_edge G u v <-> In u (predecessors G v).
Proof.
  intros Hwf. rewrite has_edge_successors by assumption. apply (wf_sym Hwf).
Qed.

(** ** Counting the edges that are left *)

Import Kahn.

Lemma edge_in_In E u v : edge_in E u v = true <-> In (u, v) E.
Proof.
  unfold edge_in. rewrite existsb_exists. split.
  - intros [[a b] [Hin He]]. simpl in He. apply andb_true_iff in He.
    destruct He as [Ha Hb]. apply String.eqb_eq in Ha, Hb. now subst.
  - intros Hin. exists (u, v). simpl. now rewrite !String.eqb_refl.
Qed.

Lemma edge_in_false E u v : edge_in E u v = false <-> ~ In (u, v) E.
Proof. rewrite <- edge_in_In. destruct (edge_in E u v); split; congruence. Qed.

(** Turning the test off at one element of a duplicate-free list leaves one
    element less. *)
Lemma length_filter_drop (f g : string -> bool) l n :
  NoDup l -> In n l -> f n = true -> g n = false ->
  (forall u, u <> n -> g u = f u) ->
  S (length (filter g l)) = length (filter f l).
Proof.
  intros Hnd Hin Hf Hg Hext. induction l as [|x l IH]; [contradiction|].
  inversion Hnd as [|? ? Hni Hnd']; subst. simpl.
  destruct Hin as [->|Hin].
  - rewrite Hf, Hg. simpl. f_equal. f_equal. apply filter_ext_in.
    intros u Hu. apply Hext. intros ->. contradiction.
  - assert (x <> n) by (intros ->; contradiction).
    rewrite (Hext x) by assumption. destruct (f x); simpl; rewrite IH; auto.
Qed.

Lemma length_filter_le (f g : string -> bool) l :
  (forall u, g u = true -> f u = true) ->
  length (filter g l) <= length (filter f l).
Proof.
  intros Himp. induction l as [|x l IH]; simpl; [lia|].
  destruct (g x) eqn:Eg.
  - rewrite (Himp x Eg). simpl. lia.
  - destruct (f x); simpl; lia.
Qed.

Lemma NoDup_app_disjoint {A} (l1 l2 : list A) :
  NoDup (l1 ++ l2) -> forall a, In a l1 -> ~ In a l2.
Proof.
  induction l1 as [|x l1 IH]; simpl; intros Hnd a Ha; [contradiction|].
  inversion Hnd as [|? ? Hni Hnd']; subst. destruct Ha as [->|Ha]; [|now apply IH].
  intros H2. apply Hni. apply in_app_iff. now right.
Qed.

Section Remaining.
Variable G : DiGraph.
Hypothesis Hwf : wf G.

Lemma remaining_nil v : remaining G [] v = in_degree G v.
Proof.
  unfold remaining, in_degree, predecessors, keys. simpl.
  rewrite forallb_filter_id.
  - apply length_map.
  - apply forallb_forall. reflexivity.
Qed.

Lemma remaining_zero E v :
  remaining G E v = 0 <-> forall u, In u (predecessors G v) -> In (u, v) E.
Proof.
  unfold remaining. rewrite length_zero_iff_nil. split.
  - intros Hnil u Hu. apply edge_in_In.
    destruct (edge_in E u v) eqn:He; [reflexivity|].
    assert (Hin : In u (filter (fun u => negb (edge_in E u v)) (predecessors G v))).
    { apply filter_In. split; [assumption | now rewrite He]. }
    rewrite Hnil in Hin. contradiction.
  - intros Hall. destruct (filter _ _) as [|x xs] eqn:Ef; [reflexivity|].
    assert (Hx : In x (x :: xs)) by now left.
    rewrite <- Ef in Hx. apply filter_In in Hx. destruct Hx as [Hx Hb].
    apply Hall, edge_in_In in Hx. rewrite Hx in Hb. discriminate.
Qed.

Lemma remaining_pos E v :
  remaining G E v <> 0 -> exists u, In u (predecessors G v) /\ ~ In (u, v) E.
Proof.
  unfold remaining. intros Hne.
  destruct (filter _ _) as [|x xs] eqn:Ef; [now contradiction Hne|].
  assert (Hx : In x (x :: xs)) by now left.
  rewrite <- Ef in Hx. apply filter_In in Hx. destruct Hx as [Hx Hb].
  exists x. split; [assumption|]. apply edge_in_false. now destruct (edge_in E x v).
Qed.

Lemma remaining_step_other E n c v :
  v <> c -> remaining G ((n, c) :: E) v = remaining G E v.
Proof.
  intros Hne. unfold remaining. f_equal. apply filter_ext. intros u.
  unfold edge_in. simpl. apply String.eqb_neq in Hne.
  rewrite String.eqb_sym in Hne. rewrite Hne. now rewrite andb_false_r.
Qed.

Lemma remaining_step_same E n c :
  In n (predecessors G c) -> ~ In (n, c) E ->
  S (remaining G ((n, c) :: E) c) = remaining G E c.
Proof.
  intros Hin Hni. unfold remaining. apply length_filter_drop with (n := n).
  - apply (wf_pred_nodup Hwf).
  - assumption.
  - apply edge_in_false in Hni. now rewrite Hni.
  - unfold edge_in. simpl. now rewrite !String.eqb_refl.
  - intros u Hu. unfold edge_in. simpl. apply String.eqb_neq in Hu.
    rewrite String.eqb_sym in Hu. now rewrite Hu.
Qed.

Lemma remaining_step_le E n c v :
  remaining G ((n, c) :: E) v <= remaining G E v.
Proof.
  unfold remaining. apply length_filter_le. intros u.
  unfold edge_in. simpl. rewrite negb_orb. intros H.
  apply andb_true_iff in H. tauto.
Qed.

Lemma predecessors_in_nodes u v : In u (predecessors G v) -> In u (nodes G) /\ In v (nodes G).
Proof. intros H. apply (wf_sym Hwf) in H. now apply (wf_closed Hwf). Qed.

End Remaining.

(** ** One generation of topological_sort *)

Lemma length_set_present {V} (d : dict V) k v : In k (keys d) -> length (set d k v) = length d.
Proof.
  intros H. rewrite <- (length_map fst (set d k v)), <- (length_map fst d).
  fold (keys (set d k v)) (keys d). now rewrite keys_set_present.
Qed.

Lemma get_Some_keys {V} (d : dict V) k v : get d k = Some v -> In k (keys d).
Proof.
  intros H. destruct (in_dec string_dec k (keys d)) as [Hi|Hn]; [assumption|].
  apply get_None_keys in Hn. congruence.
Qed.

(** A node leaves [indegree_map] exactly when it joins [zero_indegree]. *)
Lemma visit_child_length st c st' :
  visit_child st c = Ok st' ->
  length (fst st') + length (snd st') = length (fst st) + length (snd st).
Proof.
  destruct st as [M Z]. unfold visit_child.
  destruct (get M c) as [d|] eqn:Eg; [|discriminate].
  apply get_Some_keys in Eg.
  destruct (d - 1 =? 0); intros [= <-]; simpl.
  - assert (Hin : In c (keys (set M c (d - 1)))) by (apply In_keys_set; now left).
    pose proof (length_del _ _ Hin) as Hd.
    rewrite length_set_present in Hd by assumption.
    rewrite length_app. simpl. lia.
  - now rewrite length_set_present.
Qed.

Lemma visit_children_length cs st st' :
  visit_children cs st = Ok st' ->
  length (fst st') + length (snd st') = length (fst st) + length (snd st).
Proof.
  revert st. induction cs as [|c cs IH]; intros st; simpl.
  - now intros [= <-].
  - destruct (visit_child st c) as [st1| |] eqn:E; simpl; try discriminate.
    intros H. rewrite (IH _ H). now apply visit_child_length with (c := c).
Qed.

Lemma visit_generation_length G gen st st' :
  visit_generation G gen st = Ok st' ->
  length (fst st') + length (snd st') = length (fst st) + length (snd st).
Proof.
  revert st. induction gen as [|n gen IH]; intros st; simpl.
  - now intros [= <-].
  - destruct (visit_node G st n) as [st1| |] eqn:E; simpl; try discriminate.
    intros H. rewrite (IH _ H). unfold visit_node in E.
    destruct (negb (has (_node G) n)); [discriminate|].
    destruct (get (_succ G) n); [|discriminate].
    now apply visit_children_length in E.
Qed.

Section Generation.
Variable G : DiGraph.
Hypothesis Hwf : wf G.

Lemma visit_child_inner E0 st E n c :
  inner G E0 st E -> In n (predecessors G c) -> ~ In (n, c) E ->
  exists st', visit_child st c = Ok st' /\ inner G E0 st' ((n, c) :: E).
Proof.
  intros [Hk Hm Hzn Hz Hmono] Hin Hni. destruct st as [M Z]. simpl in *.
  pose proof (remaining_step_same G Hwf E n c Hin Hni) as Hs.
  assert (Ho : forall v, v <> c -> remaining G ((n, c) :: E) v = remaining G E v)
    by (intros; now apply remaining_step_other).
  unfold visit_child. rewrite Hm. rewrite <- Hs. simpl Nat.eqb. cbv iota.
  replace (S (remaining G ((n, c) :: E) c) - 1) with (remaining G ((n, c) :: E) c) by lia.
  destruct (remaining G ((n, c) :: E) c =? 0) eqn:E0'.
  - apply Nat.eqb_eq in E0'. eexists. split; [reflexivity|].
    constructor; simpl.
    + apply NoDup_keys_del. now apply NoDup_keys_set.
    + intros v. destruct (string_dec v c) as [->|Hne].
      * rewrite get_del_same by now apply NoDup_keys_set. now rewrite E0'.
      * rewrite get_del_other by congruence. rewrite get_set_other by congruence.
        rewrite Ho by assumption. apply Hm.
    + apply NoDup_app; [assumption | repeat constructor; simpl; tauto |].
      intros x Hx [<-|[]]. apply Hz in Hx. lia.
    + intros v. rewrite in_app_iff. simpl. destruct (string_dec v c) as [->|Hne].
      * split; [intros _ | tauto]. split; [|assumption]. specialize (Hmono c). lia.
      * rewrite Ho by assumption. rewrite Hz. intuition congruence.
    + intros v. pose proof (remaining_step_le G E n c v). specialize (Hmono v). lia.
  - apply Nat.eqb_neq in E0'. eexists. split; [reflexivity|].
    constructor; simpl.
    + now apply NoDup_keys_set.
    + intros v. destruct (string_dec v c) as [->|Hne].
      * rewrite get_set_same. apply Nat.eqb_neq in E0'. now rewrite E0'.
      * rewrite get_set_other by congruence. rewrite Ho by assumption. apply Hm.
    + assumption.
    + intros v. destruct (string_dec v c) as [->|Hne].
      * rewrite Hz. lia.
      * rewrite Ho by assumption. apply Hz.
    + intros v. pose proof (remaining_step_le G E n c v). specialize (Hmono v). lia.
Qed.

Lemma visit_children_inner E0 n cs st E :
  inner G E0 st E -> NoDup cs ->
  (forall c, In c cs -> In n (predecessors G c) /\ ~ In (n, c) E) ->
  exists st' E',
    visit_children cs st = Ok st' /\ inner G E0 st' E' /\
    forall a b, In (a, b) E' <-> In (a, b) E \/ (a = n /\ In b cs).
Proof.
  revert st E. induction cs as [|c cs IH]; intros st E Hinv Hnd Hcs; simpl.
  - exists st, E. split; [reflexivity|]. split; [assumption|].
    intros a b. simpl. tauto.
  - inversion Hnd as [|? ? Hni Hnd']; subst.
    destruct (Hcs c (or_introl eq_refl)) as [Hp He].
    destruct (visit_child_inner E0 st E n c Hinv Hp He) as [st1 [Hv Hinv1]].
    rewrite Hv. simpl.
    destruct (IH st1 ((n, c) :: E) Hinv1 Hnd') as [st' [E' [Hr [Hinv' HE']]]].
    { intros c' Hc'. destruct (Hcs c' (or_intror Hc')) as [Hp' He']. split; [assumption|].
      intros [Heq|Hin]; [|contradiction]. injection Heq as <-. contradiction. }
    exists st', E'. split; [assumption|]. split; [assumption|].
    intros a b. rewrite HE'. simpl. split.
    + intros [[[= <- <-]|H]|[-> H]]; auto.
    + intros [H|[-> [<-|H]]]; auto.
Qed.

Lemma visit_node_inner E0 st E n :
  inner G E0 st E -> In n (nodes G) -> (forall c, ~ In (n, c) E) ->
  exists st' E',
    visit_node G st n = Ok st' /\ inner G E0 st' E' /\
    forall a b, In (a, b) E' <-> In (a, b) E \/ (a = n /\ In b (successors G n)).
Proof.
  intros Hinv Hn Hfresh. unfold visit_node.
  assert (Hh : has (_node G) n = true) by now apply has_keys.
  rewrite Hh. simpl.
  assert (Hs : In n (keys (_succ G))) by now rewrite (wf_succ_keys Hwf).
  destruct (get (_succ G) n) as [nbrs|] eqn:Eg.
  2: { apply get_None_keys in Eg. contradiction. }
  assert (Hsucc : keys nbrs = successors G n).
  { unfold successors, adj. now rewrite Eg. }
  rewrite Hsucc. apply visit_children_inner; try assumption.
  - apply (wf_succ_nodup Hwf).
  - intros c Hc. split; [now apply (wf_sym Hwf) | apply Hfresh].
Qed.

Lemma visit_generation_inner E0 gen st E :
  inner G E0 st E -> NoDup gen -> incl gen (nodes G) ->
  (forall n c, In n gen -> ~ In (n, c) E) ->
  exists st' E',
    visit_generation G gen st = Ok st' /\ inner G E0 st' E' /\
    forall a b, In (a, b) E' <-> In (a, b) E \/ (In a gen /\ In b (successors G a)).
Proof.
  revert st E. induction gen as [|n gen IH]; intros st E Hinv Hnd Hincl Hfresh; simpl.
  - exists st, E. split; [reflexivity|]. split; [assumption|].
    intros a b. simpl. tauto.
  - inversion Hnd as [|? ? Hni Hnd']; subst.
    destruct (visit_node_inner E0 st E n Hinv) as [st1 [E1 [Hv [Hinv1 HE1]]]].
    { apply Hincl. now left. }
    { intros c. apply Hfresh. now left. }
    rewrite Hv. simpl.
    destruct (IH st1 E1 Hinv1 Hnd') as [st' [E' [Hr [Hinv' HE']]]].
    { intros x Hx. apply Hincl. now right. }
    { intros m c Hm H. apply HE1 in H. destruct H as [H|[-> _]]; [|contradiction].
      revert H. apply Hfresh. now right. }
    exists st', E'. split; [assumption|]. split; [assumption|].
    intros a b. rewrite HE', HE1. simpl. split.
    + intros [[H|[-> H]]|[H1 H2]]; auto.
    + intros [H|[[<-|H1] H2]]; auto.
Qed.

End Generation.

(** ** A finite set in which every element has a predecessor holds a cycle *)

Section Pigeonhole.
Variable A : Type.
Variable R : A -> A -> Prop.
Hypothesis A_dec : forall x y : A, {x = y} + {x <> y}.

Lemma chain_tail x l : chain R (x :: l) -> chain R l.
Proof. destruct l as [|y l]; simpl; tauto. Qed.

Lemma chain_reach l : forall x, chain R (x :: l) -> forall y, In y l -> clos_trans A R x y.
Proof.
  induction l as [|z l IH]; intros x Hc y Hy; [contradiction|].
  destruct Hc as [Hxz Hc]. destruct Hy as [<-|Hy].
  - now apply t_step.
  - apply t_trans with z; [now apply t_step | now apply IH].
Qed.

Lemma chain_dup_cycle l : chain R l -> ~ NoDup l -> exists x, clos_trans A R x x.
Proof.
  induction l as [|x l IH]; intros Hc Hnd.
  - exfalso. apply Hnd. constructor.
  - destruct (in_dec A_dec x l) as [Hin|Hni].
    + exists x. now apply chain_reach with l.
    + apply IH; [now apply chain_tail with x|].
      intros Hl. apply Hnd. now constructor.
Qed.

Lemma chain_backwards (S : list A) :
  (forall v, In v S -> exists u, In u S /\ R u v) ->
  forall n v, In v S ->
  exists x l, In x S /\ incl l S /\ length l = n /\ chain R (x :: l).
Proof.
  intros Hpred n v Hv. induction n as [|n IH].
  - exists v, []. repeat split; auto. intros x [].
  - destruct IH as [x [l [Hx [Hl [Hlen Hc]]]]].
    destruct (Hpred x Hx) as [u [Hu Hux]].
    exists u, (x :: l). repeat split; auto.
    + intros y [<-|Hy]; auto.
    + simpl. now rewrite Hlen.
Qed.

Lemma pigeonhole_cycle (S : list A) v :
  In v S -> (forall v, In v S -> exists u, In u S /\ R u v) ->
  exists x, clos_trans A R x x.
Proof.
  intros Hv Hpred.
  destruct (chain_backwards S Hpred (length S) v Hv) as [x [l [Hx [Hl [Hlen Hc]]]]].
  apply chain_dup_cycle with (x :: l); [assumption|].
  intros Hnd. apply NoDup_incl_length with (l' := S) in Hnd.
  - simpl in Hnd. lia.
  - intros y [<-|Hy]; auto.
Qed.

End Pigeonhole.

(** A map from the nodes to numbers that rises along every edge rules out a
    cycle. *)
Lemma acyclic_by_rank G (rank : string -> nat) :
  (forall u v, has_edge G u v -> rank u < rank v) -> acyclic G.
Proof.
  intros Hrank [x Hx].
  assert (H : forall a b, clos_trans string (has_edge G) a b -> rank a < rank b).
  { intros a b Hab. induction Hab as [a b Hab|a b c _ IH1 _ IH2]; [auto | lia]. }
  specialize (H x x Hx). lia.
Qed.

(** The same with the edges listed, for a graph that is given. *)
Lemma acyclic_by_rank_edges G (rank : string -> nat) :
  forallb (fun e => rank (fst e) <? rank (snd e)) (edges G) = true -> acyclic G.
Proof.
  intros H. apply acyclic_by_rank with rank. intros u v Huv.
  rewrite forallb_forall in H. specialize (H (u, v) Huv). now apply Nat.ltb_lt in H.
Qed.

(** ** The loop of topological_sort *)

Lemma ordered_from_incl G order : forall seen seen',
  incl seen seen' -> ordered_from G seen order -> ordered_from G seen' order.
Proof.
  induction order as [|v order IH]; intros seen seen' Hincl; simpl; [tauto|].
  intros [Hp Ho]. split.
  - intros u Hu. auto.
  - apply IH with (seen ++ [v]); [|assumption].
    intros x Hx. apply in_app_iff in Hx. apply in_app_iff. destruct Hx; auto.
Qed.

Lemma ordered_from_generation G later : forall gen seen,
  (forall z, In z gen -> incl (predecessors G z) seen) ->
  ordered_from G (seen ++ gen) later -> ordered_from G seen (gen ++ later).
Proof.
  induction gen as [|z gen IH]; intros seen Hgen Ho; simpl.
  - now rewrite app_nil_r in Ho.
  - split; [apply Hgen; now left|]. apply IH.
    + intros z' Hz' u Hu. apply in_app_iff. left. apply (Hgen z'); [now right | assumption].
    + now rewrite <- app_assoc.
Qed.

Section Loop.
Variable G : DiGraph.
Hypothesis Hwf : wf G.

Lemma outer_ready Y Z M E z :
  outer G Y Z M E -> In z (Y ++ Z) -> incl (predecessors G z) Y.
Proof.
  intros Ho Hz u Hu. apply (out_zero Ho) in Hz. destruct Hz as [_ Hz].
  rewrite remaining_zero in Hz. apply Hz in Hu. now apply (out_edges Ho) in Hu.
Qed.

(** When the loop stops with entries left in [indegree_map], each of their
    nodes has a predecessor among them. *)
Lemma outer_stuck Y M E v :
  outer G Y [] M E -> In v (keys M) ->
  exists u, In u (keys M) /\ has_edge G u v.
Proof.
  intros Ho Hv.
  assert (Hne : remaining G E v <> 0).
  { intros H0. apply get_None_keys in Hv; [assumption|].
    rewrite (out_map Ho), H0. reflexivity. }
  destruct (remaining_pos G E v Hne) as [u [Hu Hnot]].
  exists u. split; [|now apply has_edge_predecessors].
  destruct (predecessors_in_nodes G Hwf u v Hu) as [Hun _].
  assert (Hnz : remaining G E u <> 0).
  { intros H0. assert (HY : In u (Y ++ [])) by (apply (out_zero Ho); auto).
    rewrite app_nil_r in HY. apply Hnot. apply (out_edges Ho).
    split; [assumption | now apply (wf_sym Hwf)]. }
  apply get_Some_keys with (remaining G E u).
  rewrite (out_map Ho). apply Nat.eqb_neq in Hnz. now rewrite Hnz.
Qed.

Lemma generations_spec : forall fuel Y Z M E,
  outer G Y Z M E -> (Z <> [] -> length M < fuel) ->
  exists ys fin,
    generations fuel G M Z = (ys, fin) /\
    ordered_from G Y ys /\ NoDup (Y ++ ys) /\ incl ys (nodes G) /\
    ((fin = Ok tt /\ incl (nodes G) (Y ++ ys)) \/
     (fin = Raise NetworkXUnfeasible /\ has_cycle G)).
Proof.
  assert (Hstop : forall fuel Y M E, outer G Y [] M E ->
    exists ys fin,
      generations fuel G M [] = (ys, fin) /\
      ordered_from G Y ys /\ NoDup (Y ++ ys) /\ incl ys (nodes G) /\
      ((fin = Ok tt /\ incl (nodes G) (Y ++ ys)) \/
       (fin = Raise NetworkXUnfeasible /\ has_cycle G))).
  { intros fuel Y M E Ho.
    assert (Hgen : generations fuel G M [] =
                   match M with [] => ([], Ok tt) | _ :: _ => ([], Raise NetworkXUnfeasible) end)
      by (destruct fuel; reflexivity).
    rewrite Hgen. destruct M as [|[k d] M'] eqn:EM.
    - exists [], (Ok tt). split; [reflexivity|]. split; [exact I|].
      split; [apply (out_nodup Ho)|]. split; [intros x []|].
      left. split; [reflexivity|]. intros v Hv.
      apply (out_zero Ho). split; [assumption|].
      pose proof (out_map Ho v) as Hm. simpl in Hm.
      destruct (remaining G E v =? 0) eqn:E0; [now apply Nat.eqb_eq | discriminate].
    - exists [], (Raise NetworkXUnfeasible). split; [reflexivity|]. split; [exact I|].
      split; [apply (out_nodup Ho)|]. split; [intros x []|].
      right. split; [reflexivity|].
      apply pigeonhole_cycle with (S := keys ((k, d) :: M')) (v := k).
      + exact string_dec.
      + now left.
      + intros v Hv. apply (outer_stuck Y _ E v Ho Hv). }
  induction fuel as [|fuel IH]; intros Y Z M E Ho Hfuel.
  - destruct Z as [|z Z]; [now apply Hstop with E|].
    exfalso. assert (z :: Z <> []) by discriminate. specialize (Hfuel H). lia.
  - destruct Z as [|z Z]; [now apply Hstop with E|].
    set (gen := z :: Z) in *.
    assert (Hinner : inner G E (M, []) E).
    { constructor; simpl.
      - apply (out_keys Ho).
      - apply (out_map Ho).
      - constructor.
      - intros v. split; [contradiction | lia].
      - intros v. lia. }
    pose proof (out_nodup Ho) as HndYZ.
    assert (Hndgen : NoDup gen) by (now apply NoDup_app_remove_l with Y).
    assert (HgenY : forall n, In n gen -> ~ In n Y).
    { intros n Hn HY. now apply (NoDup_app_disjoint Y gen HndYZ n). }
    destruct (visit_generation_inner G Hwf E gen (M, []) E Hinner Hndgen)
      as [[M' Z'] [E' [Hvis [Hinv' HE']]]].
    { intros n Hn. apply (out_zero Ho). apply in_app_iff. now right. }
    { intros n c Hn Hin. apply (out_edges Ho) in Hin. now apply (HgenY n). }
    assert (Hlen : length M' + length Z' = length M).
    { apply visit_generation_length in Hvis. simpl in Hvis. lia. }
    assert (Ho' : outer G (Y ++ gen) Z' M' E').
    { destruct Hinv' as [Hk Hm Hzn Hz Hmono]. cbn [fst snd] in *. constructor.
      - intros u v. rewrite HE', (out_edges Ho), in_app_iff. tauto.
      - assumption.
      - assumption.
      - apply NoDup_app; [assumption | assumption |].
        intros v Hv HZ'. apply Hz in HZ'. apply (out_zero Ho) in Hv. tauto.
      - intros v. rewrite in_app_iff, (out_zero Ho), Hz. split.
        + intros [[Hn H0]|[Hne H0]].
          * split; [assumption|]. specialize (Hmono v). lia.
          * split; [|assumption].
            destruct (remaining_pos G E v Hne) as [u [Hu _]].
            now destruct (predecessors_in_nodes G Hwf u v Hu).
        + intros [Hn H0]. destruct (Nat.eq_dec (remaining G E v) 0); tauto. }
    destruct (IH (Y ++ gen) Z' M' E' Ho') as [ys [fin [Hg [Hord [Hnd [Hincl Hfin]]]]]].
    { intros HZ'. assert (length Z' <> 0) by (destruct Z'; simpl; congruence).
      assert (gen <> []) by (unfold gen; discriminate). specialize (Hfuel H0). lia. }
    exists (gen ++ ys), fin. split.
    { change (generations (S fuel) G M gen) with
        (match visit_generation G gen (M, []) with
         | Ok (indegree_map', zero_indegree') =>
             let '(later, fin) := generations fuel G indegree_map' zero_indegree' in
             (gen ++ later, fin)
         | Raise e => ([], Raise e)
         | OutOfFuel => ([], OutOfFuel)
         end).
      rewrite Hvis, Hg. reflexivity. }
    split.
    { apply ordered_from_generation; [|assumption].
      intros n Hn. apply (outer_ready Y gen M E n Ho). apply in_app_iff. now right. }
    split; [now rewrite app_assoc|].
    split.
    { intros x Hx. apply in_app_iff in Hx. destruct Hx as [Hx|Hx]; [|auto].
      apply (out_zero Ho). apply in_app_iff. now right. }
    rewrite app_assoc. exact Hfin.
Qed.

End Loop.

(** ** topological_sort on a graph that satisfies the invariant *)

Lemma keys_filter_view (p : nat -> bool) (g : string -> nat) l :
  keys (filter (fun '(_, d) => p d) (map (fun n => (n, g n)) l)) =
  filter (fun n => p (g n)) l.
Proof.
  induction l as [|x l IH]; simpl; [reflexivity|].
  destruct (p (g x)); simpl; now rewrite IH.
Qed.

Lemma get_filter_view (p : nat -> bool) (g : string -> nat) l v :
  get (filter (fun '(_, d) => p d) (map (fun n => (n, g n)) l)) v =
  if mem v l && p (g v) then Some (g v) else None.
Proof.
  induction l as [|x l IH]; simpl; [reflexivity|].
  rewrite (String.eqb_sym v x).
  destruct (p (g x)) eqn:Ep; simpl.
  - destruct (String.eqb_spec x v) as [->|Hne]; simpl; [now rewrite Ep | exact IH].
  - destruct (String.eqb_spec x v) as [->|Hne]; simpl; [|exact IH].
    rewrite IH, Ep. now rewrite andb_false_r.
Qed.

Section Sort.
Variable G : DiGraph.
Hypothesis Hwf : wf G.

Lemma in_degree_absent v : ~ In v (nodes G) -> in_degree G v = 0.
Proof.
  intros Hv. unfold in_degree. rewrite adj_absent; [reflexivity|].
  now rewrite (wf_pred_keys Hwf).
Qed.

Lemma outer_initial :
  outer G []
    (map fst (filter (fun '(_, d) => d =? 0) (in_degree_view G)))
    (filter (fun '(_, d) => 0 <? d) (in_degree_view G)) [].
Proof.
  unfold in_degree_view. rewrite (wf_succ_keys Hwf). fold (nodes G).
  pose proof (keys_filter_view (fun d => d =? 0) (in_degree G) (nodes G)) as HZ.
  unfold keys in HZ at 1. rewrite HZ. clear HZ.
  constructor.
  - intros u v. simpl. tauto.
  - rewrite (keys_filter_view (fun d => 0 <? d)). apply NoDup_filter, (wf_nodes Hwf).
  - intros v. rewrite (get_filter_view (fun d => 0 <? d)), remaining_nil.
    destruct (mem v (nodes G)) eqn:Em; simpl.
    + destruct (in_degree G v); reflexivity.
    + apply mem_false in Em. now rewrite (in_degree_absent v Em).
  - simpl. apply NoDup_filter, (wf_nodes Hwf).
  - intros v. simpl. rewrite filter_In, remaining_nil, Nat.eqb_eq. tauto.
Qed.

(** The nodes that topological_sort yields come each after its
    predecessors and once; it ends normally with every node yielded, or with
    [NetworkXUnfeasible] on a graph that has a cycle, and in no other way. *)
Lemma topological_sort_spec :
  exists ys fin,
    topological_sort G = (ys, fin) /\
    ordered_from G [] ys /\ NoDup ys /\ incl ys (nodes G) /\
    ((fin = Ok tt /\ incl (nodes G) ys) \/
     (fin = Raise NetworkXUnfeasible /\ has_cycle G)).
Proof.
  unfold topological_sort.
  apply (generations_spec G Hwf _ [] _ _ [] outer_initial).
  intros _. lia.
Qed.

End Sort.

(** ** assign_layers *)

Import Layering.

Lemma layers_of_keys layers ps ls :
  layers_of layers ps = Ok ls -> forall p, In p ps -> In p (keys layers).
Proof.
  revert ls. induction ps as [|q ps IH]; intros ls; simpl; [contradiction|].
  destruct (get layers q) as [l|] eqn:Eg; [|discriminate].
  destruct (layers_of layers ps) as [ls'| |] eqn:El; simpl; try discriminate.
  intros _ p [<-|Hp]; [now apply get_Some_keys with l | now apply IH with ls'].
Qed.

Lemma layers_of_ext layers layers' ps :
  (forall p, In p ps -> get layers' p = get layers p) ->
  layers_of layers' ps = layers_of layers ps.
Proof.
  induction ps as [|q ps IH]; intros Hext; simpl; [reflexivity|].
  rewrite (Hext q (or_introl eq_refl)), IH; [reflexivity|].
  intros p Hp. apply Hext. now right.
Qed.

Lemma layers_of_total layers ps :
  incl ps (keys layers) ->
  exists ls, layers_of layers ps = Ok ls /\ length ls = length ps.
Proof.
  induction ps as [|q ps IH]; intros Hincl; simpl.
  - now exists [].
  - destruct (get layers q) as [l|] eqn:Eg.
    + destruct IH as [ls [Hls Hlen]]; [intros p Hp; apply Hincl; now right|].
      rewrite Hls. simpl. exists (l :: ls). simpl. now rewrite Hlen.
    + apply get_None_keys in Eg. exfalso. apply Eg, Hincl. now left.
Qed.

Lemma layers_of_Forall2 layers ps ls :
  layers_of layers ps = Ok ls -> Forall2 (fun p l => get layers p = Some l) ps ls.
Proof.
  revert ls. induction ps as [|q ps IH]; intros ls; simpl.
  - intros [= <-]. constructor.
  - destruct (get layers q) as [l|] eqn:Eg; [|discriminate].
    destruct (layers_of layers ps) as [ls'| |] eqn:El; simpl; try discriminate.
    intros [= <-]. constructor; auto.
Qed.

Lemma Forall2_pick_l {A B} (R : A -> B -> Prop) xs ys x :
  Forall2 R xs ys -> In x xs -> exists y, In y ys /\ R x y.
Proof.
  induction 1 as [|a b xs ys Hab _ IH]; [contradiction|].
  intros [<-|Hx].
  - exists b. split; [now left | assumption].
  - destruct (IH Hx) as [y [Hy Hr]]. exists y. split; [now right | assumption].
Qed.

Lemma Forall2_pick_r {A B} (R : A -> B -> Prop) xs ys y :
  Forall2 R xs ys -> In y ys -> exists x, In x xs /\ R x y.
Proof.
  induction 1 as [|a b xs ys Hab _ IH]; [contradiction|].
  intros [<-|Hy].
  - exists a. split; [now left | assumption].
  - destruct (IH Hy) as [x [Hx Hr]]. exists x. split; [now right | assumption].
Qed.

Lemma list_max_In ls : ls <> [] -> In (list_max ls) ls.
Proof.
  induction ls as [|x ls IH]; [congruence|]. intros _.
  change (list_max (x :: ls)) with (Nat.max x (list_max ls)).
  destruct ls as [|y ls].
  - left. simpl. lia.
  - destruct (Nat.max_spec x (list_max (y :: ls))) as [[_ ->]|[_ ->]].
    + right. apply IH. discriminate.
    + now left.
Qed.

Lemma list_max_ge ls x : In x ls -> x <= list_max ls.
Proof.
  induction ls as [|y ls IH]; [contradiction|].
  change (list_max (y :: ls)) with (Nat.max y (list_max ls)).
  intros [->|Hx]; [lia|]. specialize (IH Hx). lia.
Qed.

Lemma layered_set G layers v lv x :
  layered G layers x -> ~ In v (keys layers) -> layered G (set layers v lv) x.
Proof.
  intros [lx [ls [Hg [Hls Hlx]]]] Hv. exists lx, ls.
  assert (Hxv : v <> x) by (intros ->; apply Hv; now apply get_Some_keys with lx).
  split; [now rewrite get_set_other|]. split; [|assumption].
  rewrite <- Hls. apply layers_of_ext. intros p Hp.
  apply get_set_other. intros ->. apply Hv. now apply (layers_of_keys _ _ _ Hls).
Qed.

(** The layer of a node lies above the layer of each predecessor. *)
Lemma layered_above G layers u v :
  layered G layers v -> In u (predecessors G v) ->
  exists lu lv, get layers u = Some lu /\ get layers v = Some lv /\ lu < lv.
Proof.
  intros [lv [ls [Hg [Hls Hlv]]]] Hu.
  pose proof (layers_of_Forall2 _ _ _ Hls) as HF.
  destruct (Forall2_pick_l _ _ _ _ HF Hu) as [lu [Hlu Hgu]].
  exists lu, lv. repeat split; try assumption.
  pose proof (list_max_ge _ _ Hlu) as Hle. destruct ls; [contradiction | lia].
Qed.

Section Assign.
Variable G : DiGraph.
Hypothesis Hwf : wf G.

Lemma predecessors_get v : In v (nodes G) ->
  exists preds, get (_pred G) v = Some preds /\ keys preds = predecessors G v.
Proof.
  intros Hv. unfold nodes in Hv. rewrite <- (wf_pred_keys Hwf) in Hv.
  destruct (get (_pred G) v) as [preds|] eqn:Eg.
  - exists preds. split; [reflexivity|]. unfold predecessors, adj. now rewrite Eg.
  - apply get_None_keys in Eg. contradiction.
Qed.

Lemma assign_node_spec layers v :
  In v (nodes G) -> ~ In v (keys layers) -> incl (predecessors G v) (keys layers) ->
  exists lv, assign_node G layers v = Ok (set layers v lv) /\
             layered G (set layers v lv) v.
Proof.
  intros Hv Hfresh Hincl. unfold assign_node.
  destruct (predecessors_get v Hv) as [preds [Hg Hk]]. rewrite Hg, Hk.
  destruct (layers_of_total layers _ Hincl) as [ls [Hls Hlen]].
  assert (Hself : layers_of (set layers v (match ls with [] => 0 | _ :: _ => list_max ls + 1 end))
                    (predecessors G v) = Ok ls).
  { rewrite <- Hls. apply layers_of_ext. intros p Hp. apply get_set_other.
    intros ->. apply Hfresh, Hincl, Hp. }
  assert (Hlp : length preds = length (predecessors G v)).
  { rewrite <- Hk. unfold keys. now rewrite length_map. }
  destruct (length preds =? 0) eqn:E0.
  - apply Nat.eqb_eq in E0. assert (ls = []) as -> by (destruct ls; simpl in *; [reflexivity | lia]).
    exists 0. split; [reflexivity|]. exists 0, []. repeat split; auto. apply get_set_same.
  - apply Nat.eqb_neq in E0. rewrite Hls. simpl.
    destruct ls as [|l ls]; [simpl in Hlen; lia|]. simpl Py.max. cbv iota. simpl bind.
    exists (list_max (l :: ls) + 1). split; [reflexivity|].
    exists (list_max (l :: ls) + 1), (l :: ls). repeat split; auto. apply get_set_same.
Qed.

Lemma assign_nodes_spec : forall order layers,
  NoDup (keys layers ++ order) -> incl order (nodes G) ->
  ordered_from G (keys layers) order ->
  (forall v, In v (keys layers) -> layered G layers v) ->
  exists layers',
    assign_nodes G order layers = Ok layers' /\
    keys layers' = keys layers ++ order /\
    forall v, In v (keys layers') -> layered G layers' v.
Proof.
  induction order as [|v order IH]; intros layers Hnd Hincl Hord Hlay; simpl.
  - exists layers. rewrite app_nil_r. auto.
  - destruct Hord as [Hp Hord].
    assert (Hfresh : ~ In v (keys layers)).
    { intros Hv. apply (NoDup_app_disjoint _ _ Hnd v Hv). now left. }
    destruct (assign_node_spec layers v) as [lv [Ha Hl]]; auto.
    { apply Hincl. now left. }
    rewrite Ha. simpl.
    assert (Hkeys : keys (set layers v lv) = keys layers ++ [v]) by now apply keys_set_absent.
    destruct (IH (set layers v lv)) as [layers' [Hr [Hk' Hl']]].
    + rewrite Hkeys, <- app_assoc. exact Hnd.
    + intros x Hx. apply Hincl. now right.
    + now rewrite Hkeys.
    + intros x Hx. rewrite Hkeys in Hx. apply in_app_iff in Hx.
      destruct Hx as [Hx|[<-|[]]]; [|assumption].
      apply layered_set; auto.
    + exists layers'. split; [assumption|]. split; [|assumption].
      rewrite Hk', Hkeys, <- app_assoc. reflexivity.
Qed.

(** assign_layers returns a layering of every node when the graph has no
    cycle, and raises [NetworkXUnfeasible] when it has one. *)
Lemma assign_layers_spec :
  (acyclic G /\
   exists layers, assign_layers G = Ok layers /\ NoDup (keys layers) /\
     (forall v, In v (keys layers) <-> In v (nodes G)) /\
     (forall v, In v (nodes G) -> layered G layers v)) \/
  (has_cycle G /\ assign_layers G = Raise NetworkXUnfeasible).
Proof.
  destruct (topological_sort_spec G Hwf) as [ys [fin [Hts [Hord [Hnd [Hincl Hfin]]]]]].
  destruct (assign_nodes_spec ys []) as [layers [Ha [Hk Hl]]]; simpl; auto.
  { intros v []. }
  simpl in Hk. unfold assign_layers. rewrite Hts, Ha. simpl.
  destruct Hfin as [[-> Hall]|[-> Hcyc]].
  - left. simpl.
    assert (Hlay : forall v, In v (nodes G) -> layered G layers v).
    { intros v Hv. apply Hl. rewrite Hk. now apply Hall. }
    split.
    + apply acyclic_by_rank with
        (fun v => match get layers v with Some l => l | None => 0 end).
      intros u v Huv.
      assert (Hp : In u (predecessors G v)) by now apply has_edge_predecessors.
      destruct (predecessors_in_nodes G Hwf u v Hp) as [_ Hv].
      destruct (layered_above G layers u v (Hlay v Hv) Hp) as [lu [lv [-> [-> Hlt]]]].
      exact Hlt.
    + exists layers. split; [reflexivity|]. split; [now rewrite Hk|]. split; [|assumption].
      intros v. rewrite Hk. split; [apply Hincl | apply Hall].
  - right. split; [assumption | reflexivity].
Qed.

End Assign.

(** ** Adding an edge that is there *)

Lemma get_adj_unit (a : dict unit) k : In k (keys a) -> get a k = Some tt.
Proof.
  intros H. destruct (get a k) as [[]|] eqn:E; [reflexivity|].
  apply get_None_keys in E. contradiction.
Qed.

Lemma set_adj_present (d : dict (dict unit)) u v :
  In u (keys d) -> In v (keys (adj d u)) -> set d u (set (adj d u) v tt) = d.
Proof.
  intros Hu Hv. apply set_same_value.
  rewrite (set_same_value (adj d u) v tt (get_adj_unit _ _ Hv)).
  unfold adj. destruct (get d u) eqn:E; [reflexivity|].
  apply get_None_keys in E. contradiction.
Qed.

(** [add_edge] leaves a graph that has the edge as it is. *)
Lemma add_edge_present G u v : wf G -> In v (successors G u) -> add_edge G u v = G.
Proof.
  intros Hwf Huv.
  destruct (wf_closed Hwf u v Huv) as [Hu Hv].
  assert (Hpu : In u (predecessors G v)) by now apply (wf_sym Hwf).
  unfold nodes in Hu, Hv.
  assert (Hsu : has (_succ G) u = true) by (apply has_keys; now rewrite (wf_succ_keys Hwf)).
  assert (Hsv : has (_succ G) v = true) by (apply has_keys; now rewrite (wf_succ_keys Hwf)).
  unfold add_edge, ensure_node. rewrite Hsu, Hsv.
  rewrite set_adj_present; [| now rewrite (wf_succ_keys Hwf) | exact Huv].
  rewrite set_adj_present; [| now rewrite (wf_pred_keys Hwf) | exact Hpu].
  now destruct G.
Qed.

Lemma add_dependencies_once job_id : forall deps seen G,
  wf G ->
  (forall d, In d seen -> truthy d = true -> In job_id (successors G d)) ->
  add_dependencies G job_id (Spec.declare_once seen deps) = add_dependencies G job_id deps.
Proof.
  unfold add_dependencies.
  induction deps as [|dep deps IH]; intros seen G Hwf Hseen; simpl; [reflexivity|].
  destruct (mem dep seen) eqn:Em.
  - apply mem_In in Em. destruct (truthy dep) eqn:Et.
    + rewrite add_edge_present by auto. now apply IH.
    + now apply IH.
  - simpl. apply IH.
    + destruct (truthy dep); auto using add_edge_wf.
    + intros d [<-|Hd] Ht.
      * rewrite Ht. apply add_edge_successors; auto.
      * destruct (truthy dep); [|auto]. apply add_edge_successors; auto.
Qed.

Lemma declare_once_In deps : forall seen d,
  In d (Spec.declare_once seen deps) <-> In d deps /\ ~ In d seen.
Proof.
  induction deps as [|dep deps IH]; intros seen d; simpl; [tauto|].
  destruct (mem dep seen) eqn:Em.
  - apply mem_In in Em. rewrite IH. split; [tauto|].
    intros [[<-|H] Hn]; [contradiction | tauto].
  - apply mem_false in Em. simpl. rewrite IH. simpl. split.
    + intros [<-|[H1 H2]]; [tauto|]. split; [tauto|]. intros H. apply H2. now right.
    + intros [[<-|H] Hn]; [now left|].
      destruct (string_dec dep d) as [->|Hne]; [now left|]. right. tauto.
Qed.

Lemma declare_once_NoDup deps : forall seen, NoDup (Spec.declare_once seen deps).
Proof.
  induction deps as [|dep deps IH]; intros seen; simpl; [constructor|].
  destruct (mem dep seen); [apply IH|]. constructor; [|apply IH].
  intros H. apply declare_once_In in H. destruct H as [_ H]. apply H. now left.
Qed.

(** ** Names and labels of the built graph *)

Lemma ensure_node_label G n x l :
  get (_node G) x = Some l -> wf G -> get (_node (ensure_node G n)) x = Some l.
Proof.
  intros Hx Hwf. unfold ensure_node. destruct (has (_succ G) n) eqn:E; [assumption|]. simpl.
  apply has_false_keys in E. rewrite (wf_succ_keys Hwf) in E.
  rewrite get_set_other; [assumption|]. intros ->. apply E.
  now apply get_Some_keys with l.
Qed.

Lemma add_edge_label G u v x l :
  get (_node G) x = Some l -> wf G -> get (_node (add_edge G u v)) x = Some l.
Proof.
  intros Hx Hwf. unfold add_edge. simpl.
  apply ensure_node_label; [|now apply ensure_node_wf]. now apply ensure_node_label.
Qed.

Lemma add_dependencies_label job_id x l : forall deps G,
  get (_node G) x = Some l -> wf G ->
  get (_node (add_dependencies G job_id deps)) x = Some l.
Proof.
  unfold add_dependencies. induction deps as [|dep deps IH]; intros G Hx Hwf; simpl; [assumption|].
  destruct (truthy dep); [|now apply IH]. apply IH; [now apply add_edge_label | now apply add_edge_wf].
Qed.

Lemma add_node_label G n l :
  get (_node (add_node G n l)) n = Some (Some l).
Proof. unfold add_node. destruct (has (_node G) n); simpl; apply get_set_same. Qed.

Lemma add_node_label_other G n l x :
  x <> n -> get (_node (add_node G n l)) x = get (_node G) x.
Proof.
  intros Hne. unfold add_node. destruct (has (_node G) n); simpl; apply get_set_other; congruence.
Qed.

(** After the loop of the builder a job ID carries the name of the last row
    that has it, in the graph and in [job_id_to_name]. *)
Lemma fold_add_job_names : forall rows acc id n,
  wf (fst acc) ->
  Spec.last_name rows id = Some n \/
  (Spec.last_name rows id = None /\
   get (_node (fst acc)) id = Some (Some n) /\ get (snd acc) id = Some n) ->
  let acc' := fold_left add_job (process_jobs_from_input rows) acc in
  get (_node (fst acc')) id = Some (Some n) /\ get (snd acc') id = Some n.
Proof.
  induction rows as [|row rows IH]; intros acc id n Hwf Hcase; simpl.
  - destruct Hcase as [H|[_ H]]; [discriminate | exact H].
  - apply IH; [now apply add_job_wf|].
    simpl in Hcase. destruct (Spec.last_name rows id) as [m|].
    { left. destruct Hcase as [H|[H _]]; [exact H | discriminate]. }
    right.
    split; [reflexivity|]. destruct acc as [G names]. simpl in *.
    destruct (String.eqb_spec (ID row) id) as [Hid|Hne].
    + destruct Hcase as [[= <-]|[H _]]; [|discriminate]. subst id. split.
      * apply add_dependencies_label; [apply add_node_label | now apply add_node_wf].
      * apply get_set_same.
    + destruct Hcase as [H|[_ [H1 H2]]]; [discriminate|]. split.
      * apply add_dependencies_label; [|now apply add_node_wf].
        rewrite add_node_label_other; [assumption | congruence].
      * rewrite get_set_other; [assumption | congruence].
Qed.

Lemma build_names rows id n :
  Spec.last_name rows id = Some n ->
  let built := build_dependency_graph (process_jobs_from_input rows) in
  get (_node (fst built)) id = Some (Some n) /\ get (snd built) id = Some n.
Proof.
  intros H. unfold build_dependency_graph.
  apply fold_add_job_names; [apply wf_empty | now left].
Qed.

Lemma last_name_In rows id : In id (map ID rows) <-> exists n, Spec.last_name rows id = Some n.
Proof.
  induction rows as [|row rows IH]; simpl.
  - split; [contradiction | intros [n H]; discriminate].
  - destruct (Spec.last_name rows id) as [m|].
    + split; [intros _; now exists m|]. intros _. right. apply IH. now exists m.
    + destruct (String.eqb_spec (ID row) id) as [Hid|Hne].
      * split; [intros _; now exists (Name row) | now left].
      * split; [|intros [n H]; discriminate].
        intros [H|H]; [contradiction|]. apply IH in H. destruct H as [n H]. discriminate.
Qed.

(** ** The table and the drawing *)

Lemma insert_by_layer_perm x l : Permutation (insert_by_layer x l) (x :: l).
Proof.
  induction l as [|y l IH]; simpl; [reflexivity|].
  destruct (snd x <=? snd y); [reflexivity|].
  rewrite IH. apply perm_swap.
Qed.

Lemma sorted_by_layer_perm l : Permutation (sorted_by_layer l) l.
Proof.
  induction l as [|x l IH]; simpl; [reflexivity|].
  rewrite insert_by_layer_perm. now constructor.
Qed.

Lemma filter_unique {A} (f : A -> string) l x :
  NoDup (map f l) -> In x l -> filter (fun y => String.eqb (f y) (f x)) l = [x].
Proof.
  induction l as [|y l IH]; simpl; [contradiction|].
  intros Hnd Hin. inversion Hnd as [|? ? Hni Hnd']; subst.
  assert (Hnone : forall z, ~ In (f z) (map f l) ->
            filter (fun y => String.eqb (f y) (f z)) l = []).
  { intros z Hz. clear - Hz. induction l as [|w l IH]; simpl; [reflexivity|].
    simpl in Hz. destruct (String.eqb_spec (f w) (f z)) as [Heq|Hne]; [tauto|].
    apply IH. tauto. }
  destruct Hin as [->|Hin].
  - rewrite String.eqb_refl. f_equal. now apply Hnone.
  - destruct (String.eqb_spec (f y) (f x)) as [Heq|Hne].
    + exfalso. apply Hni. rewrite Heq. now apply in_map.
    + now apply IH.
Qed.

Lemma map_snd_enumerate {A} (l : list A) : map snd (enumerate l) = l.
Proof.
  unfold enumerate. generalize 0. induction l as [|x l IH]; intros k; simpl; [reflexivity|].
  now rewrite IH.
Qed.

Lemma dict_of_total {V} (f : nat -> string -> result V) : forall ns d,
  (forall i n, In (i, n) ns -> exists v, f i n = Ok v) ->
  exists d', dict_of f ns d = Ok d'.
Proof.
  induction ns as [|[i n] ns IH]; intros d Hf; simpl.
  - now exists d.
  - destruct (Hf i n (or_introl eq_refl)) as [v Hv]. rewrite Hv. simpl.
    apply IH. intros j m Hjm. apply Hf. now right.
Qed.

Lemma list_of_total {V} (f : string -> result V) : forall ns,
  (forall n, In n ns -> exists v, f n = Ok v) ->
  exists vs, list_of f ns = Ok vs.
Proof.
  induction ns as [|n ns IH]; intros Hf; simpl.
  - now exists [].
  - destruct (Hf n (or_introl eq_refl)) as [v Hv]. rewrite Hv. simpl.
    destruct IH as [vs Hvs]; [intros m Hm; apply Hf; now right|].
    rewrite Hvs. simpl. now exists (v :: vs).
Qed.

Lemma dict_of_get {V} (h : string -> V) : forall ns d d',
  dict_of (fun _ node => Ok (h node)) ns d = Ok d' ->
  forall x, get d' x = if mem x (map snd ns) then Some (h x) else get d x.
Proof.
  induction ns as [|[i n] ns IH]; intros d d'; simpl.
  - now intros [= <-].
  - intros H x. rewrite (IH _ _ H x). destruct (mem x (map snd ns)) eqn:Em.
    + now rewrite orb_true_r.
    + rewrite orb_false_r. rewrite get_set. rewrite (String.eqb_sym x n).
      now destruct (String.eqb_spec n x) as [->|].
Qed.

Lemma item_total layers node : In node (keys layers) -> exists l, item layers node = Ok l.
Proof.
  intros H. unfold item. destruct (get layers node) as [l|] eqn:E; [now exists l|].
  apply get_None_keys in E. contradiction.
Qed.

Lemma positions_total G layers o :
  incl (nodes G) (keys layers) -> In o orientations ->
  exists p, positions G layers o = Ok (Some p).
Proof.
  intros Hincl Ho.
  assert (Hitem : forall i n, In (i, n) (enumerate (nodes G)) -> exists l, item layers n = Ok l).
  { intros i n Hin. apply item_total, Hincl.
    rewrite <- (map_snd_enumerate (nodes G)). change n with (snd (i, n)). now apply in_map. }
  unfold positions.
  destruct Ho as [<-|[<-|[<-|[<-|[]]]]]; simpl String.eqb; cbv iota;
    match goal with
    | |- context [dict_of ?f ?ns ?d] =>
        destruct (dict_of_total f ns d) as [p Hp];
          [intros i n Hin; destruct (Hitem i n Hin) as [l Hl]; rewrite Hl; simpl; eauto
          | rewrite Hp; simpl; now exists p]
    end.
Qed.

(** With a layer for every node and one of the four orientations the
    drawing succeeds; the colours and the labels do not depend on the
    orientation. *)
Lemma draw_layered_graph_total shuffle G layers names o :
  incl (nodes G) (keys layers) -> In o orientations ->
  exists p colors lbls,
    draw_layered_graph shuffle G layers names o = Ok (mkDrawing p colors lbls) /\
    list_of (fun node =>
      l <- item layers node ;;
      Ok (nth (l mod length (shuffle base_colors)) (shuffle base_colors) EmptyString))
      (nodes G) = Ok colors /\
    dict_of (fun _ node =>
      Ok (match get names node with Some name => name | None => node end))
      (enumerate (nodes G)) [] = Ok lbls.
Proof.
  intros Hincl Ho. unfold draw_layered_graph.
  destruct (positions_total G layers o Hincl Ho) as [p Hp]. rewrite Hp. simpl.
  match goal with
  | |- context [list_of ?f ?ns] => destruct (list_of_total f ns) as [colors Hc]
  end.
  { intros n Hn. destruct (item_total layers n (Hincl n Hn)) as [l Hl]. rewrite Hl. simpl. eauto. }
  rewrite Hc. simpl.
  match goal with
  | |- context [dict_of ?f ?ns ?d] => destruct (dict_of_total f ns d) as [lbls Hl]
  end.
  { intros i n _. eauto. }
  rewrite Hl. simpl. exists p, colors, lbls. auto.
Qed.

(** ** visualize_jobs *)

Lemma keys_shift (layers0 : dict nat) :
  keys (map (fun '(node, layer) => (node, layer + 1)) layers0) = keys layers0.
Proof.
  unfold keys. rewrite map_map. apply map_ext. now intros [node layer].
Qed.

Lemma ordered_table_ids names layers0 :
  Permutation (map (fun row : TableRow => snd (fst row)) (ordered_table names layers0))
    (keys layers0).
Proof.
  unfold ordered_table. rewrite map_map.
  rewrite (map_ext _ fst) by now intros [job_id layer].
  rewrite <- (keys_shift layers0). apply Permutation_map, sorted_by_layer_perm.
Qed.

Lemma ordered_table_row names layers0 id l :
  get layers0 id = Some l -> In (l + 1, id, get names id) (ordered_table names layers0).
Proof.
  intros Hg. unfold ordered_table. apply in_map_iff. exists (id, l + 1). split; [reflexivity|].
  apply (Permutation_in _ (Permutation_sym (sorted_by_layer_perm _))).
  apply in_map_iff. exists (id, l). split; [reflexivity | now apply get_Some_In].
Qed.

(** What a successful call has computed. *)
Lemma visualize_jobs_Ok shuffle rows o table drawing :
  visualize_jobs shuffle rows o = Ok (table, drawing) ->
  let built := build_dependency_graph (process_jobs_from_input rows) in
  exists layers0,
    assign_layers (fst built) = Ok layers0 /\
    table = ordered_table (snd built) layers0 /\
    dict_of (fun _ node =>
      Ok (match get (snd built) node with Some name => name | None => node end))
      (enumerate (nodes (fst built))) [] = Ok (labels drawing).
Proof.
  unfold visualize_jobs.
  destruct (build_dependency_graph (process_jobs_from_input rows)) as [G names]. simpl.
  destruct (assign_layers G) as [layers0| |]; simpl; try discriminate.
  destruct (draw_layered_graph shuffle G _ names o) as [d| |] eqn:Ed; simpl; try discriminate.
  intros [= <- <-]. exists layers0. split; [reflexivity|]. split; [reflexivity|].
  unfold draw_layered_graph in Ed.
  destruct (positions G _ o) as [p| |]; simpl in Ed; try discriminate.
  destruct (list_of _ (nodes G)) as [colors| |]; simpl in Ed; try discriminate.
  destruct (dict_of _ (enumerate (nodes G)) []) as [lbls| |]; simpl in Ed; try discriminate.
  destruct p; [|discriminate]. now injection Ed as <-.
Qed.

(** A call ends with [NetworkXUnfeasible] on a graph with a cycle, and
    otherwise returns the ordered table of the layers, with a drawing whose
    colours and labels are those of every orientation. *)
Lemma visualize_jobs_cases shuffle rows o :
  In o orientations ->
  let built := build_dependency_graph (process_jobs_from_input rows) in
  (has_cycle (fst built) /\ visualize_jobs shuffle rows o = Raise NetworkXUnfeasible) \/
  (acyclic (fst built) /\
   exists layers0 p colors lbls,
     assign_layers (fst built) = Ok layers0 /\
     visualize_jobs shuffle rows o =
       Ok (ordered_table (snd built) layers0, mkDrawing p colors lbls) /\
     list_of (fun node =>
       l <- item (map (fun '(node, layer) => (node, layer + 1)) layers0) node ;;
       Ok (nth (l mod length (shuffle base_colors)) (shuffle base_colors) EmptyString))
       (nodes (fst built)) = Ok colors /\
     dict_of (fun _ node =>
       Ok (match get (snd built) node with Some name => name | None => node end))
       (enumerate (nodes (fst built))) [] = Ok lbls).
Proof.
  intros Ho. pose proof (build_dependency_graph_wf (process_jobs_from_input rows)) as Hwf.
  unfold visualize_jobs.
  destruct (build_dependency_graph (process_jobs_from_input rows)) as [G names]. simpl in *.
  destruct (assign_layers_spec G Hwf) as [[Hacyc [layers0 [Ha [Hnd [Hk Hl]]]]]|[Hcyc Hr]].
  - right. split; [assumption|]. rewrite Ha. simpl.
    destruct (draw_layered_graph_total shuffle G
                (map (fun '(node, layer) => (node, layer + 1)) layers0) names o)
      as [p [colors [lbls [Hd [Hc Hlb]]]]]; [|assumption|].
    { intros v Hv. rewrite keys_shift. now apply Hk. }
    exists layers0, p, colors, lbls. rewrite Hd. simpl. auto.
  - left. split; [assumption|]. now rewrite Hr.
Qed.

(** ** The script *)

Lemma append_assoc (a b c : string) : ((a ++ b) ++ c = a ++ (b ++ c))%string.
Proof. induction a as [|x a IH]; simpl; [reflexivity | now rewrite IH]. Qed.

Lemma error_message_fold entries : forall message,
  exists rest,
    fold_left (fun message entry => (message ++ error_line entry)%string) entries message
      = (message ++ rest)%string.
Proof.
  induction entries as [|e entries IH]; intros message; simpl.
  - exists EmptyString. induction message as [|x m IHm]; simpl; [reflexivity | now rewrite <- IHm].
  - destruct (IH (message ++ error_line e)%string) as [rest Hr]. rewrite Hr.
    exists (error_line e ++ rest)%string. apply append_assoc.
Qed.

(** The message has a line for every entry of the report. *)
Lemma error_message_lines entries entry : forall message,
  In entry entries ->
  exists before after,
    fold_left (fun message entry => (message ++ error_line entry)%string) entries message
      = (before ++ error_line entry ++ after)%string.
Proof.
  induction entries as [|e entries IH]; intros message; simpl; [contradiction|].
  intros [->|Hin].
  - destruct (error_message_fold entries (message ++ error_line entry)%string) as [rest Hr].
    rewrite Hr. exists message, rest. apply append_assoc.
  - now apply IH.
Qed.

Lemma last_name_split rows id n :
  Spec.last_name rows id = Some n ->
  exists before row after,
    rows = before ++ row :: after /\ ID row = id /\ Name row = n /\
    forall r, In r after -> ID r <> id.
Proof.
  induction rows as [|row rows IH]; simpl; [discriminate|].
  destruct (Spec.last_name rows id) as [m|] eqn:El.
  - intros [= ->]. destruct (IH eq_refl) as [before [r [after [-> H]]]].
    exists (row :: before), r, after. split; [reflexivity | assumption].
  - destruct (String.eqb_spec (ID row) id) as [Hid|Hne]; [|discriminate].
    intros [= <-]. exists [], row, rows. repeat split; auto.
    intros r Hr Hrid. assert (Hin : In id (map ID rows)).
    { rewrite <- Hrid. now apply in_map. }
    apply last_name_In in Hin. destruct Hin as [m Hm]. congruence.
Qed.

(** ** The scenarios of the specification, run on the model *)

Example scenario_A_layers :
  assign_layers (fst (build_dependency_graph (process_jobs_from_input Scenarios.scenario_A)))
    = Ok [("A", 0); ("B", 1); ("C", 2)]%string.
Proof. vm_compute. reflexivity. Qed.

Example scenario_A_table :
  fmap fst (visualize_jobs (fun c => c) Scenarios.scenario_A "Top to Bottom")
    = Ok [(1, "A", Some "Compile"); (2, "B", Some "Link"); (3, "C", Some "Test")]%string.
Proof. vm_compute. reflexivity. Qed.

Example scenario_B_report :
  validate_dependencies Scenarios.scenario_B = [("X", ["Y"])]%string.
Proof. vm_compute. reflexivity. Qed.

Example scenario_D_layers :
  assign_layers (fst (build_dependency_graph (process_jobs_from_input Scenarios.scenario_D)))
    = Ok [("A", 0); ("B", 0); ("C", 1)]%string.
Proof. vm_compute. reflexivity. Qed.

(** A job that depends on itself passes the validator and makes a cycle. *)
Example self_loop_is_a_cycle :
  validate_dependencies [mkRow "A" "a" (Some "A")]%string = [] /\
  assign_layers
    (fst (build_dependency_graph (process_jobs_from_input [mkRow "A" "a" (Some "A")]%string)))
    = Raise NetworkXUnfeasible.
Proof. vm_compute. split; reflexivity. Qed.

(** With two rows of the same ID the entry of the later row replaces the
    entry of the earlier one in the report. *)
Example repeated_id_report :
  validate_dependencies [mkRow "X" "x" (Some "Y"); mkRow "X" "x" (Some "Z")]%string
    = [("X", ["Z"])]%string.
Proof. vm_compute. reflexivity. Qed.


(** * The claims *)

Import Scenarios.

(** ** Layering *)

(** C1: for every list of jobs whose built graph has no cycle,
    [assign_layers] returns a layer assignment, and every edge [u -> v] of the
    built graph has [layer[u] < layer[v]] in it (layers before the display
    offset). *)
Theorem C1_edges_rise_in_layer :
  forall jobs : list Job,
    let G := fst (build_dependency_graph jobs) in
    acyclic G ->
    exists layers,
      assign_layers G = Ok layers /\
      forall u v, In (u, v) (edges G) ->
        exists lu lv, get layers u = Some lu /\ get layers v = Some lv /\ lu < lv.
Proof.
  intros jobs G Hacyc.
  pose proof (build_dependency_graph_wf jobs) as Hwf. fold G in Hwf.
  destruct (assign_layers_spec G Hwf) as [[_ [layers [Ha [_ [Hk Hl]]]]]|[Hc _]].
  - exists layers. split; [assumption|]. intros u v Huv.
    assert (Hp : In u (predecessors G v)) by now apply has_edge_predecessors.
    destruct (predecessors_in_nodes G Hwf u v Hp) as [_ Hv].
    exact (layered_above G layers u v (Hl v Hv) Hp).
  - contradiction.
Qed.

Lemma C1_witness :
  exists layers,
    assign_layers (fst (build_dependency_graph (process_jobs_from_input scenario_A)))
      = Ok layers /\
    forall u v,
      In (u, v) (edges (fst (build_dependency_graph (process_jobs_from_input scenario_A)))) ->
      exists lu lv, get layers u = Some lu /\ get layers v = Some lv /\ lu < lv.
Proof.
  apply (C1_edges_rise_in_layer (process_jobs_from_input scenario_A)).
  apply acyclic_by_rank_edges with letter_rank. vm_compute. reflexivity.
Defined.

(** C2: on every graph with no cycle, a node has layer 0 exactly when it has
    no incoming edge, and a node with an incoming edge has layer one more
    than the greatest layer among its direct predecessors. The graph is any
    graph that satisfies the invariant of the class, as every built graph
    does ([build_dependency_graph_wf]). *)
Theorem C2_layer_is_zero_or_max_plus_one :
  forall G : DiGraph,
    wf G -> acyclic G ->
    exists layers,
      assign_layers G = Ok layers /\
      forall v, In v (nodes G) ->
        exists lv,
          get layers v = Some lv /\
          (lv = 0 <-> forall u, ~ has_edge G u v) /\
          ((exists u, has_edge G u v) ->
             exists m, max_pred_layer G layers v m /\ lv = 1 + m).
Proof.
  intros G Hwf Hacyc.
  destruct (assign_layers_spec G Hwf) as [[_ [layers [Ha [_ [Hk Hl]]]]]|[Hc _]];
    [|contradiction].
  exists layers. split; [assumption|]. intros v Hv.
  destruct (Hl v Hv) as [lv [ls [Hg [Hls Hlv]]]]. exists lv. split; [assumption|].
  pose proof (layers_of_Forall2 _ _ _ Hls) as HF.
  assert (Hlen : length (predecessors G v) = length ls) by now apply Forall2_length in HF.
  split; [split|].
  - intros H0 u Hu. apply has_edge_predecessors in Hu; [|assumption].
    destruct ls as [|l ls]; [|lia].
    destruct (predecessors G v); [contradiction | discriminate].
  - intros Hno. destruct ls as [|l ls]; [assumption|]. exfalso.
    destruct (predecessors G v) as [|u us] eqn:Ep; [discriminate|].
    apply (Hno u). apply has_edge_predecessors; [assumption|]. rewrite Ep. now left.
  - intros [u Hu]. apply has_edge_predecessors in Hu; [|assumption].
    destruct ls as [|l ls].
    { destruct (predecessors G v); [contradiction | discriminate]. }
    exists (list_max (l :: ls)). split; [|lia]. split.
    + destruct (Forall2_pick_r _ _ _ (list_max (l :: ls)) HF) as [p [Hp Hgp]].
      { apply list_max_In. discriminate. }
      exists p. split; [now apply has_edge_predecessors | assumption].
    + intros p Hp. apply has_edge_predecessors in Hp; [|assumption].
      destruct (Forall2_pick_l _ _ _ _ HF Hp) as [lp [Hlp Hgp]].
      exists lp. split; [assumption | now apply list_max_ge].
Qed.

Lemma C2_witness :
  exists layers,
    assign_layers (fst (build_dependency_graph (process_jobs_from_input scenario_D)))
      = Ok layers /\
    forall v,
      In v (nodes (fst (build_dependency_graph (process_jobs_from_input scenario_D)))) ->
      exists lv,
        get layers v = Some lv /\
        (lv = 0 <->
         forall u, ~ has_edge
           (fst (build_dependency_graph (process_jobs_from_input scenario_D))) u v) /\
        ((exists u, has_edge
            (fst (build_dependency_graph (process_jobs_from_input scenario_D))) u v) ->
         exists m,
           max_pred_layer
             (fst (build_dependency_graph (process_jobs_from_input scenario_D))) layers v m /\
           lv = 1 + m).
Proof.
  apply (C2_layer_is_zero_or_max_plus_one
           (fst (build_dependency_graph (process_jobs_from_input scenario_D)))).
  - apply build_dependency_graph_wf.
  - apply acyclic_by_rank_edges with letter_rank. vm_compute. reflexivity.
Defined.

(** C4: when the built graph has a cycle, [assign_layers] ends with the
    exception [NetworkXUnfeasible] that topological_sort raises for a graph
    with a cycle: it returns no layer assignment and raises no other
    exception. *)
Theorem C4_cycle_raises_unfeasible :
  forall jobs : list Job,
    let G := fst (build_dependency_graph jobs) in
    has_cycle G -> assign_layers G = Raise NetworkXUnfeasible.
Proof.
  intros jobs G Hcyc.
  pose proof (build_dependency_graph_wf jobs) as Hwf. fold G in Hwf.
  destruct (assign_layers_spec G Hwf) as [[Hacyc _]|[_ Hr]]; [contradiction | assumption].
Qed.

Lemma C4_witness :
  assign_layers (fst (build_dependency_graph (process_jobs_from_input scenario_C)))
    = Raise NetworkXUnfeasible.
Proof.
  apply (C4_cycle_raises_unfeasible (process_jobs_from_input scenario_C)).
  exists "A"%string. apply t_trans with "B"%string; apply t_step; vm_compute; tauto.
Defined.

(** ** Parsing and validation *)

Lemma invalid_tokens_nil jobs_df row :
  invalid_tokens jobs_df row = [] <->
  forall tok, In tok (dependencies_of row) -> In (strip tok) (map ID jobs_df).
Proof.
  unfold invalid_tokens. induction (dependencies_of row) as [|dep deps IH]; simpl.
  - split; [intros _ tok [] | reflexivity].
  - destruct (mem (strip dep) (map ID jobs_df)) eqn:Em; simpl.
    + apply mem_In in Em. rewrite IH. split.
      * intros H tok [<-|Ht]; auto.
      * intros H tok Ht. apply H. now right.
    + apply mem_false in Em. split; [discriminate|].
      intros H. exfalso. apply Em, H. now left.
Qed.

(** C3: the report of [validate_dependencies] is empty exactly when every
    comma-separated dependency token of every job, once trimmed, is the ID
    of some job. Every entry of the report is the full list of the invalid
    trimmed tokens of a row with that ID, every ID with an invalid token has
    an entry, and an ID with no invalid token has none; with IDs that are
    distinct, the entry of each job is the list of all its invalid tokens. *)
Theorem C3_report_lists_invalid_tokens :
  forall jobs_df : list Row,
    let report := validate_dependencies jobs_df in
    (report = [] <->
     forall row, In row jobs_df ->
     forall tok, In tok (dependencies_of row) -> In (strip tok) (map ID jobs_df)) /\
    (forall id toks, get report id = Some toks ->
       toks <> [] /\
       exists row, In row jobs_df /\ ID row = id /\ toks = invalid_tokens jobs_df row) /\
    (forall row, In row jobs_df -> invalid_tokens jobs_df row <> [] ->
       get report (ID row) <> None) /\
    (forall id,
       (forall row, In row jobs_df -> ID row = id -> invalid_tokens jobs_df row = []) ->
       get report id = None) /\
    (NoDup (map ID jobs_df) ->
     forall row, In row jobs_df ->
       get report (ID row) =
         match invalid_tokens jobs_df row with
         | [] => None
         | toks => Some toks
         end).
Proof.
  intros jobs_df report.
  assert (Hget : forall id, get report id = last_report jobs_df jobs_df id).
  { intros id. unfold report, validate_dependencies. rewrite validate_fold_get.
    now destruct (last_report jobs_df jobs_df id). }
  split; [|split; [|split; [|split]]].
  - unfold report, validate_dependencies. rewrite validate_fold_nil. split.
    + intros [_ H] row Hrow. apply invalid_tokens_nil. now apply H.
    + intros H. split; [reflexivity|]. intros row Hrow. apply invalid_tokens_nil. now apply H.
  - intros id toks Hg. rewrite Hget in Hg.
    destruct (last_report_Some _ _ _ _ Hg) as [row [Hin [Hid [Ht Hne]]]].
    split; [assumption|]. exists row. auto.
  - intros row Hin Hne Hnone. rewrite Hget in Hnone.
    rewrite last_report_None in Hnone. apply Hne. now apply Hnone.
  - intros id Hall. rewrite Hget. now apply last_report_None.
  - intros Hnd row Hin. rewrite Hget. now apply last_report_unique.
Qed.

Lemma C3_witness :
  get (validate_dependencies scenario_B) "X"%string = Some ["Y"%string].
Proof.
  exact (proj2 (proj2 (proj2 (proj2 (C3_report_lists_invalid_tokens scenario_B))))
           ltac:(repeat constructor; simpl; tauto)
           (mkRow "X" "Bad" (Some "Y"%string)) (or_introl eq_refl)).
Defined.

(** C6: the parser keeps the ID and the name of each row and splits its
    dependency text on commas; a row whose dependency text is missing or
    empty gets the empty dependency list, and no row makes it fail. *)
Theorem C6_parser_splits_on_commas :
  forall jobs_df : list Row,
    Forall2
      (fun row job =>
         exists deps,
           job = (ID row, Name row, deps) /\
           match Dependencies row with
           | None => deps = []
           | Some EmptyString => deps = []
           | Some text => comma_tokens text deps
           end)
      jobs_df (process_jobs_from_input jobs_df).
Proof.
  intros rows0. induction rows0 as [|row rows IH]; simpl; constructor; [|assumption].
  exists (dependencies_of row). split; [reflexivity|].
  pose proof (dependencies_of_tokens row) as H.
  destruct (Dependencies row) as [[|c text]|]; assumption.
Qed.

(** ** The graph builder *)

(** C5: the builder tests and uses each token as the parser left it, so a
    token with a space before the ID passes the validator, which trims it,
    and then names a node of its own: on [spaced_D] the report is empty, the
    graph gets the node [" B"] and the edge from it to [C], and no edge from
    [B] to [C]. *)
Theorem C5_builder_does_not_trim :
  let G := fst (build_dependency_graph (process_jobs_from_input spaced_D)) in
  validate_dependencies spaced_D = [] /\
  nodes G = ["A"; "B"; "C"; " B"]%string /\
  edges G = [("A", "C"); (" B", "C")]%string /\
  ~ has_edge G "B"%string "C"%string /\
  assign_layers G = Ok [("A", 0); ("B", 0); (" B", 0); ("C", 1)]%string.
Proof.
  vm_compute. repeat split.
  intros [H|[H|[]]]; discriminate.
Qed.

(** C9: a dependency that a job declares more than once adds nothing: with
    every repeated token of every job dropped, the builder returns the same
    graph and the same names, hence [assign_layers] the same layers. *)
Theorem C9_repeated_dependency_adds_nothing :
  forall jobs : list Job,
    let once :=
      map (fun job : Job =>
             let '(job_id, job_name, deps) := job in
             (job_id, job_name, Spec.declare_once [] deps)) jobs in
    Forall2 (fun job job' =>
               fst job' = fst job /\ NoDup (snd job') /\
               forall d, In d (snd job') <-> In d (snd job)) jobs once /\
    build_dependency_graph once = build_dependency_graph jobs /\
    assign_layers (fst (build_dependency_graph once)) =
      assign_layers (fst (build_dependency_graph jobs)).
Proof.
  intros jobs once.
  assert (Hrel : Forall2 (fun job job' =>
               fst job' = fst job /\ NoDup (snd job') /\
               forall d, In d (snd job') <-> In d (snd job)) jobs once).
  { unfold once. clear once. induction jobs as [|[[i n] deps] jobs IH]; simpl; constructor.
    - simpl. split; [reflexivity|]. split; [apply declare_once_NoDup|].
      intros d. rewrite declare_once_In. simpl. tauto.
    - assumption. }
  assert (Heq : build_dependency_graph once = build_dependency_graph jobs).
  { unfold build_dependency_graph, once. clear once Hrel.
    assert (Hgen : forall acc, wf (fst acc) ->
      fold_left add_job
        (map (fun job : Job =>
                let '(job_id, job_name, deps) := job in
                (job_id, job_name, Spec.declare_once [] deps)) jobs) acc =
      fold_left add_job jobs acc).
    { induction jobs as [|[[i n] deps] jobs IH]; intros acc Hwf; simpl; [reflexivity|].
      assert (Hstep : add_job acc (i, n, Spec.declare_once [] deps) = add_job acc (i, n, deps)).
      { destruct acc as [G names]. simpl. f_equal.
        apply add_dependencies_once; [now apply add_node_wf | intros d []]. }
      rewrite Hstep. apply IH. now apply add_job_wf. }
    apply Hgen. apply wf_empty. }
  split; [assumption|]. split; [assumption|]. now rewrite Heq.
Qed.

(** ** The table and the drawing *)

(** C8: for any two of the four orientations, [visualize_jobs] ends in the
    same way and, when it returns, with the same ordered table, whatever the
    colours drawn at random; with the same colours the drawings have the same
    node colours and labels too, so the orientation shows in the coordinates
    alone. *)
Theorem C8_orientation_keeps_table :
  forall (shuffle shuffle' : list string -> list string) (jobs_df : list Row)
         (o1 o2 : string),
    In o1 orientations -> In o2 orientations ->
    fmap fst (visualize_jobs shuffle jobs_df o1) =
      fmap fst (visualize_jobs shuffle' jobs_df o2) /\
    fmap (fun r => (node_colors (snd r), labels (snd r))) (visualize_jobs shuffle jobs_df o1) =
      fmap (fun r => (node_colors (snd r), labels (snd r))) (visualize_jobs shuffle jobs_df o2).
Proof.
  intros shuffle shuffle' rows o1 o2 H1 H2.
  destruct (visualize_jobs_cases shuffle rows o1 H1)
    as [[Hc1 Hr1]|[Ha1 [l1 [p1 [c1 [b1 [Hl1 [Hv1 [Hc1 Hb1]]]]]]]]];
  destruct (visualize_jobs_cases shuffle' rows o2 H2)
    as [[Hc2 Hr2]|[Ha2 [l2 [p2 [c2 [b2 [Hl2 [Hv2 [Hc2 Hb2]]]]]]]]];
  destruct (visualize_jobs_cases shuffle rows o2 H2)
    as [[Hc3 Hr3]|[Ha3 [l3 [p3 [c3 [b3 [Hl3 [Hv3 [Hc3 Hb3]]]]]]]]];
  try contradiction.
  - rewrite Hr1, Hr2, Hr3. split; reflexivity.
  - rewrite Hv1, Hv2, Hv3. simpl.
    assert (l2 = l1) as -> by congruence. assert (l3 = l1) as -> by congruence.
    split; [reflexivity|]. rewrite Hc1 in Hc3. rewrite Hb1 in Hb3. congruence.
Qed.

Lemma C8_witness :
  fmap fst (visualize_jobs (fun c => c) scenario_A "Top to Bottom") =
    fmap fst (visualize_jobs (@rev string) scenario_A "Left to Right") /\
  fmap (fun r => (node_colors (snd r), labels (snd r)))
    (visualize_jobs (fun c => c) scenario_A "Top to Bottom") =
  fmap (fun r => (node_colors (snd r), labels (snd r)))
    (visualize_jobs (fun c => c) scenario_A "Left to Right").
Proof.
  apply (C8_orientation_keeps_table (fun c => c) (@rev string) scenario_A
           "Top to Bottom" "Left to Right"); simpl; tauto.
Defined.

(** C10: when [visualize_jobs] returns, every job ID of the input, also one
    that several rows have, is one node of the built graph, with one layer
    and one row of the ordered table, and the name on the node, in the labels
    of the drawing and in that row is the name of the last row with this
    ID. *)
Theorem C10_repeated_id_one_node_last_name :
  forall (shuffle : list string -> list string) (jobs_df : list Row) (orientation : string)
         (table : list TableRow) (drawing : Drawing),
    visualize_jobs shuffle jobs_df orientation = Ok (table, drawing) ->
    forall id, In id (map ID jobs_df) ->
      let G := fst (build_dependency_graph (process_jobs_from_input jobs_df)) in
      exists before row after layers layer,
        jobs_df = before ++ row :: after /\ ID row = id /\
        (forall r, In r after -> ID r <> id) /\
        count_occ string_dec (nodes G) id = 1 /\
        get (_node G) id = Some (Some (Name row)) /\
        get (labels drawing) id = Some (Name row) /\
        assign_layers G = Ok layers /\
        count_occ string_dec (keys layers) id = 1 /\
        get layers id = Some layer /\
        filter (fun r : TableRow => String.eqb (snd (fst r)) id) table =
          [(layer + 1, id, Some (Name row))].
Proof.
  intros shuffle rows o table drawing Hviz id Hid G.
  apply last_name_In in Hid. destruct Hid as [n Hn].
  destruct (last_name_split rows id n Hn) as [before [row [after [Hrows [Hrid [Hname Hafter]]]]]].
  destruct (build_names rows id n Hn) as [Hlabel Hnames].
  destruct (visualize_jobs_Ok shuffle rows o table drawing Hviz) as [layers0 [Ha [Ht Hlb]]].
  fold G in Hlabel, Ha, Hlb.
  pose proof (build_dependency_graph_wf (process_jobs_from_input rows)) as Hwf. fold G in Hwf.
  destruct (assign_layers_spec G Hwf) as [[_ [layers [Ha' [Hnd [Hk _]]]]]|[_ Hr]];
    [|congruence].
  assert (layers = layers0) as -> by congruence.
  assert (Hnode : In id (nodes G)) by (now apply get_Some_keys with (Some n)).
  assert (Hkey : In id (keys layers0)) by now apply Hk.
  destruct (get layers0 id) as [layer|] eqn:Eg.
  2: { apply get_None_keys in Eg. contradiction. }
  exists before, row, after, layers0, layer. subst n.
  split; [assumption|]. split; [assumption|]. split; [assumption|].
  split. { apply NoDup_count_occ'; [apply (wf_nodes Hwf) | assumption]. }
  split; [assumption|].
  split.
  { rewrite (dict_of_get _ _ _ _ Hlb id). rewrite map_snd_enumerate.
    apply mem_In in Hnode. rewrite Hnode. now rewrite Hnames. }
  split; [assumption|].
  split. { now apply NoDup_count_occ'. }
  split; [exact Eg|].
  subst table. rewrite <- Hnames.
  apply (filter_unique (fun r : TableRow => snd (fst r))
           (ordered_table (snd (build_dependency_graph (process_jobs_from_input rows))) layers0)
           (layer + 1, id, get (snd (build_dependency_graph (process_jobs_from_input rows))) id)).
  - apply (Permutation_NoDup (Permutation_sym (ordered_table_ids _ layers0))). assumption.
  - now apply ordered_table_row.
Qed.

Lemma C10_witness :
  exists before row after layers layer,
    repeated_id = before ++ row :: after /\ ID row = "A"%string /\
    (forall r, In r after -> ID r <> "A"%string) /\
    count_occ string_dec
      (nodes (fst (build_dependency_graph (process_jobs_from_input repeated_id))))
      "A"%string = 1 /\
    get (_node (fst (build_dependency_graph (process_jobs_from_input repeated_id))))
      "A"%string = Some (Some (Name row)) /\
    get (labels (mkDrawing
           [("A", (0, -1)); ("B", (1, -2))]%string%Z
           ["lightgreen"; "salmon"]%string
           [("A", "second"); ("B", "b")]%string)) "A"%string = Some (Name row) /\
    assign_layers (fst (build_dependency_graph (process_jobs_from_input repeated_id)))
      = Ok layers /\
    count_occ string_dec (keys layers) "A"%string = 1 /\
    get layers "A"%string = Some layer /\
    filter (fun r : TableRow => String.eqb (snd (fst r)) "A")
      [(1, "A", Some "second"); (2, "B", Some "b")]%string =
      [(layer + 1, "A"%string, Some (Name row))].
Proof.
  apply (C10_repeated_id_one_node_last_name (fun c => c) repeated_id "Top to Bottom"
           [(1, "A", Some "second"); (2, "B", Some "b")]%string
           (mkDrawing [("A", (0, -1)); ("B", (1, -2))]%string%Z
              ["lightgreen"; "salmon"]%string [("A", "second"); ("B", "b")]%string)).
  - vm_compute. reflexivity.
  - simpl. tauto.
Defined.

(** ** main stops on an invalid report *)

Lemma generate_invalid session edited :
  validate_dependencies (dropna edited) <> [] ->
  generate session edited =
    (mkSession (jobs_df session) false,
     [StError (error_message (validate_dependencies (dropna edited)))]).
Proof.
  intros Hne. unfold generate.
  destruct (dropna edited) as [|row rows] eqn:Ed.
  - exfalso. apply Hne. reflexivity.
  - simpl empty_or_all_null. cbv iota.
    destruct (validate_dependencies (row :: rows)) as [|entry entries]; [congruence | reflexivity].
Qed.

(** C7: when the report of [validate_dependencies] on the edited table is
    not empty, a run of the script in which the button was pressed shows the
    error message and nothing else, whatever [visualize_jobs] would do (it is
    not called: no graph is built and no layering runs); the message has the
    line of every entry of the report, with all the tokens of the entry; the
    stored data frame is the one of the session before, and [jobs_updated] is
    off. *)
Theorem C7_invalid_report_stops_the_run :
  forall (session : Session) (edited : list RawRow) (orientation : string),
    let report := validate_dependencies (dropna edited) in
    report <> [] ->
    (forall visualize1 visualize2 : Visualizer,
       script visualize1 visualize2 session edited true orientation =
         (mkSession (jobs_df session) false, [StError (error_message report)], Ok tt)) /\
    (forall shuffle1 shuffle2 : list string -> list string,
       main shuffle1 shuffle2 session edited true orientation =
         (mkSession (jobs_df session) false, [StError (error_message report)], Ok tt)) /\
    (forall id toks, In (id, toks) report ->
       exists before after,
         error_message report =
           (before ++
            ("Job ID " ++ id ++ " has invalid dependencies: " ++ join ", " toks ++ newline) ++
            after)%string).
Proof.
  intros session edited orientation report Hne.
  assert (Hscript : forall visualize1 visualize2 : Visualizer,
       script visualize1 visualize2 session edited true orientation =
         (mkSession (jobs_df session) false, [StError (error_message report)], Ok tt)).
  { intros v1 v2. unfold script. rewrite (generate_invalid session edited Hne). reflexivity. }
  split; [exact Hscript|]. split.
  - intros s1 s2. apply Hscript.
  - intros id toks Hin. unfold error_message.
    apply (error_message_lines report (id, toks) _ Hin).
Qed.

Lemma C7_witness :
  main (fun c => c) (fun c => c) (mkSession scenario_A true)
    [mkRawRow (Some "X") (Some "Bad") (Some "Y, Z")]%string true "Top to Bottom" =
  (mkSession scenario_A false,
   [StError (error_message [("X", ["Y"; "Z"])]%string)], Ok tt).
Proof.
  exact (proj1 (proj2 (C7_invalid_report_stops_the_run (mkSession scenario_A true)
           [mkRawRow (Some "X") (Some "Bad") (Some "Y, Z")]%string "Top to Bottom"
           ltac:(vm_compute; discriminate))) (fun c => c) (fun c => c)).
Defined.

(** * Further properties of the program *)

(** ** What the builder puts in the graph *)

Lemma truthy_nonempty s : truthy s = true <-> s <> EmptyString.
Proof. destruct s; simpl; split; congruence. Qed.

Lemma successors_empty x : successors NX.empty x = [].
Proof. reflexivity. Qed.

Lemma add_dependencies_successors job_id x y : forall deps G,
  wf G ->
  In y (successors (add_dependencies G job_id deps) x) <->
  In y (successors G x) \/ (y = job_id /\ In x deps /\ truthy x = true).
Proof.
  unfold add_dependencies.
  induction deps as [|d deps IH]; intros G Hwf; simpl; [tauto|].
  destruct (truthy d) eqn:Et.
  - rewrite IH by now apply add_edge_wf. rewrite add_edge_successors by assumption.
    split.
    + intros [[H|[-> ->]]|[-> [H1 H2]]]; auto.
    + intros [H|[-> [[->|H1] H2]]]; auto.
  - rewrite IH by assumption. split.
    + intros [H|[-> [H1 H2]]]; auto.
    + intros [H|[-> [[->|H1] H2]]]; auto. congruence.
Qed.

Lemma add_dependencies_nodes job_id x : forall deps G,
  wf G ->
  In x (nodes (add_dependencies G job_id deps)) <->
  In x (nodes G) \/ (exists d, In d deps /\ truthy d = true /\ (x = d \/ x = job_id)).
Proof.
  unfold add_dependencies.
  induction deps as [|d deps IH]; intros G Hwf; simpl.
  - split; [tauto|]. intros [H|[d [[] _]]]. assumption.
  - destruct (truthy d) eqn:Et.
    + rewrite IH by now apply add_edge_wf. rewrite add_edge_nodes by assumption. split.
      * intros [[->|[->|H]]|[d' [H1 [H2 H3]]]]; eauto 7.
      * intros [H|[d' [[->|H1] [H2 H3]]]]; [tauto| |eauto 7]. destruct H3 as [->| ->]; tauto.
    + rewrite IH by assumption. split.
      * intros [H|[d' [H1 [H2 H3]]]]; eauto 7.
      * intros [H|[d' [[->|H1] [H2 H3]]]]; [tauto|congruence|eauto 7].
Qed.

Lemma fold_add_job_successors x y : forall jobs acc,
  wf (fst acc) ->
  In y (successors (fst (fold_left add_job jobs acc)) x) <->
  In y (successors (fst acc) x) \/
  (exists name deps, In (y, name, deps) jobs /\ In x deps /\ truthy x = true).
Proof.
  induction jobs as [|[[i n] deps] jobs IH]; intros acc Hwf; simpl.
  - split; [tauto|]. intros [H|[n [d [[] _]]]]. assumption.
  - rewrite IH by now apply add_job_wf. destruct acc as [G names]. simpl in *.
    rewrite add_dependencies_successors by now apply add_node_wf.
    rewrite add_node_successors by assumption. split.
    + intros [[H|[-> [H1 H2]]]|[n' [d' [H1 H2]]]]; eauto 8.
    + intros [H|[n' [d' [[[= -> -> ->]|H1] [H2 H3]]]]]; eauto 8.
Qed.

Lemma fold_add_job_nodes x : forall jobs acc,
  wf (fst acc) ->
  In x (nodes (fst (fold_left add_job jobs acc))) <->
  In x (nodes (fst acc)) \/
  (exists id name deps,
     In (id, name, deps) jobs /\ (x = id \/ (In x deps /\ truthy x = true))).
Proof.
  induction jobs as [|[[i n] deps] jobs IH]; intros acc Hwf; simpl.
  - split; [tauto|]. intros [H|[i [n [d [[] _]]]]]. assumption.
  - rewrite IH by now apply add_job_wf. destruct acc as [G names]. simpl in *.
    rewrite add_dependencies_nodes by now apply add_node_wf.
    rewrite add_node_nodes. split.
    + intros [[[->|H]|[d [H1 [H2 [->| ->]]]]]|[i' [n' [d' [H1 H2]]]]]; eauto 10.
    + intros [H|[i' [n' [d' [[[= -> -> ->]|H1] H2]]]]]; [tauto| |eauto 10].
      destruct H2 as [->|[H2 H3]]; [tauto|]. left. right. eauto.
Qed.

Lemma fold_add_job_name_keys id : forall jobs acc,
  In id (keys (snd (fold_left add_job jobs acc))) <->
  In id (keys (snd acc)) \/ In id (map (fun job : Job => fst (fst job)) jobs).
Proof.
  induction jobs as [|[[i n] deps] jobs IH]; intros acc; simpl; [tauto|].
  rewrite IH. destruct acc as [G names]. simpl. rewrite In_keys_set. split.
  - intros [[->|H]|H]; auto.
  - intros [H|[->|H]]; auto.
Qed.

Lemma process_ids rows :
  map (fun job : Job => fst (fst job)) (process_jobs_from_input rows) = map ID rows.
Proof. unfold process_jobs_from_input. rewrite map_map. reflexivity. Qed.

Lemma In_process_jobs rows id name deps :
  In (id, name, deps) (process_jobs_from_input rows) <->
  exists row, In row rows /\ ID row = id /\ Name row = name /\ dependencies_of row = deps.
Proof.
  unfold process_jobs_from_input. rewrite in_map_iff. split.
  - intros [row [[= <- <- <-] Hin]]. exists row. auto.
  - intros [row [Hin [<- [<- <-]]]]. exists row. auto.
Qed.

(** A cycle in the built graph makes every call of [visualize_jobs] raise. *)
Lemma visualize_jobs_cycle shuffle rows o :
  has_cycle (fst (build_dependency_graph (process_jobs_from_input rows))) ->
  visualize_jobs shuffle rows o = Raise NetworkXUnfeasible.
Proof.
  intros Hcyc. pose proof (build_dependency_graph_wf (process_jobs_from_input rows)) as Hwf.
  unfold visualize_jobs.
  destruct (build_dependency_graph (process_jobs_from_input rows)) as [G names]. simpl in *.
  destruct (assign_layers_spec G Hwf) as [[Hacyc _]|[_ Hr]]; [contradiction|].
  now rewrite Hr.
Qed.

Lemma built_edge_iff jobs u v :
  has_edge (fst (build_dependency_graph jobs)) u v <->
  exists name deps, In (v, name, deps) jobs /\ In u deps /\ u <> EmptyString.
Proof.
  rewrite has_edge_successors by apply build_dependency_graph_wf.
  unfold build_dependency_graph. rewrite fold_add_job_successors by apply wf_empty.
  simpl. split.
  - intros [[]|[n [d [H1 [H2 H3]]]]]. exists n, d. rewrite <- truthy_nonempty. auto.
  - intros [n [d [H1 [H2 H3]]]]. right. exists n, d. rewrite truthy_nonempty. auto.
Qed.

(** X1: the edges of the built graph are exactly the pairs (token, job ID)
    for the non-empty tokens of the dependency lists, taken as the parser
    left them. *)
Theorem X1_edges_of_built_graph :
  forall (jobs : list Job) (u v : string),
    has_edge (fst (build_dependency_graph jobs)) u v <->
    exists name deps, In (v, name, deps) jobs /\ In u deps /\ u <> EmptyString.
Proof. intros jobs u v. apply built_edge_iff. Qed.

(** X2: the nodes of the built graph are the job IDs and the non-empty
    dependency tokens, each once. *)
Theorem X2_nodes_of_built_graph :
  forall jobs : list Job,
    let G := fst (build_dependency_graph jobs) in
    NoDup (nodes G) /\
    forall x, In x (nodes G) <->
      exists id name deps,
        In (id, name, deps) jobs /\ (x = id \/ (In x deps /\ x <> EmptyString)).
Proof.
  intros jobs G. split; [apply (wf_nodes (build_dependency_graph_wf jobs))|].
  intros x. unfold G, build_dependency_graph. rewrite fold_add_job_nodes by apply wf_empty.
  simpl. split.
  - intros [[]|[i [n [d [H1 H2]]]]]. exists i, n, d. rewrite <- truthy_nonempty. auto.
  - intros [i [n [d [H1 H2]]]]. right. exists i, n, d. rewrite truthy_nonempty. auto.
Qed.

(** X3: when the report is empty and no dependency token has blanks around
    it, the nodes of the built graph are the job IDs and nothing else, and
    every edge runs between two job IDs. *)
Theorem X3_clean_tokens_give_no_other_node :
  forall jobs_df : list Row,
    validate_dependencies jobs_df = [] ->
    (forall row tok, In row jobs_df -> In tok (dependencies_of row) -> strip tok = tok) ->
    let G := fst (build_dependency_graph (process_jobs_from_input jobs_df)) in
    (forall x, In x (nodes G) <-> In x (map ID jobs_df)) /\
    (forall u v, has_edge G u v -> In u (map ID jobs_df) /\ In v (map ID jobs_df)).
Proof.
  intros rows Hvalid Hclean G.
  assert (Htok : forall row tok, In row rows -> In tok (dependencies_of row) ->
                   In tok (map ID rows)).
  { intros row tok Hrow Htok. unfold validate_dependencies in Hvalid.
    apply validate_fold_nil in Hvalid. destruct Hvalid as [_ Hall].
    rewrite <- (Hclean row tok Hrow Htok).
    apply (proj1 (invalid_tokens_nil rows row) (Hall row Hrow) tok Htok). }
  assert (Hnodes : forall x, In x (nodes G) <-> In x (map ID rows)).
  { intros x. unfold G, build_dependency_graph. rewrite fold_add_job_nodes by apply wf_empty.
    simpl. split.
    - intros [[]|[i [n [d [H1 H2]]]]]. apply In_process_jobs in H1.
      destruct H1 as [row [Hrow [Hi [_ Hd]]]]. destruct H2 as [->|[H2 _]].
      + rewrite <- Hi. now apply in_map.
      + apply (Htok row x Hrow). now rewrite Hd.
    - intros Hx. right. apply in_map_iff in Hx. destruct Hx as [row [<- Hrow]].
      exists (ID row), (Name row), (dependencies_of row). split; [|now left].
      apply In_process_jobs. exists row. auto. }
  split; [exact Hnodes|]. intros u v Huv.
  pose proof (build_dependency_graph_wf (process_jobs_from_input rows)) as Hwf. fold G in Hwf.
  apply has_edge_successors in Huv; [|assumption].
  destruct (wf_closed Hwf u v Huv) as [Hu Hv]. split; now apply Hnodes.
Qed.

Lemma X3_witness :
  (forall x,
     In x (nodes (fst (build_dependency_graph (process_jobs_from_input scenario_D)))) <->
     In x (map ID scenario_D)) /\
  (forall u v,
     has_edge (fst (build_dependency_graph (process_jobs_from_input scenario_D))) u v ->
     In u (map ID scenario_D) /\ In v (map ID scenario_D)).
Proof.
  apply (X3_clean_tokens_give_no_other_node scenario_D).
  - vm_compute. reflexivity.
  - intros row tok Hrow Htok. simpl in Hrow.
    destruct Hrow as [<-|[<-|[<-|[]]]]; simpl in Htok;
      repeat (destruct Htok as [<-|Htok]; [reflexivity|]); contradiction.
Defined.

(** X4: a job whose dependency list holds its own ID, which is not empty,
    makes a cycle: every call of [visualize_jobs] on such a data frame ends
    with [NetworkXUnfeasible], whatever the other rows are. *)
Theorem X4_self_dependency_raises :
  forall (shuffle : list string -> list string) (jobs_df : list Row) (orientation : string)
         (row : Row),
    In row jobs_df -> In (ID row) (dependencies_of row) -> ID row <> EmptyString ->
    has_cycle (fst (build_dependency_graph (process_jobs_from_input jobs_df))) /\
    visualize_jobs shuffle jobs_df orientation = Raise NetworkXUnfeasible.
Proof.
  intros shuffle rows o row Hrow Hself Hne.
  assert (Hcyc : has_cycle (fst (build_dependency_graph (process_jobs_from_input rows)))).
  { exists (ID row). apply t_step. apply built_edge_iff.
    exists (Name row), (dependencies_of row). split; [|auto].
    apply In_process_jobs. exists row. auto. }
  split; [assumption | now apply visualize_jobs_cycle].
Qed.

Lemma X4_witness :
  has_cycle (fst (build_dependency_graph
                    (process_jobs_from_input [mkRow "A" "a" (Some "B,A"); mkRow "B" "b" None]%string))) /\
  visualize_jobs (fun c => c) [mkRow "A" "a" (Some "B,A"); mkRow "B" "b" None]%string
    "Top to Bottom" = Raise NetworkXUnfeasible.
Proof.
  apply (X4_self_dependency_raises (fun c => c)
           [mkRow "A" "a" (Some "B,A"); mkRow "B" "b" None]%string "Top to Bottom"
           (mkRow "A" "a" (Some "B,A"%string))).
  - simpl. tauto.
  - simpl. tauto.
  - discriminate.
Defined.

(** X5: a dependency token that is blank or empty once trimmed, as a comma at
    the end of the text leaves one, puts its row in the report, unless a job
    has the empty ID. *)
Theorem X5_blank_token_is_reported :
  forall (jobs_df : list Row) (row : Row) (tok : string),
    In row jobs_df -> In tok (dependencies_of row) -> strip tok = EmptyString ->
    ~ In EmptyString (map ID jobs_df) ->
    validate_dependencies jobs_df <> [] /\
    exists toks, get (validate_dependencies jobs_df) (ID row) = Some toks /\ toks <> [].
Proof.
  intros rows row tok Hrow Htok Hblank Hno.
  assert (Hinv : invalid_tokens rows row <> []).
  { intros Hnil. apply Hno. rewrite <- Hblank.
    apply (proj1 (invalid_tokens_nil rows row) Hnil tok Htok). }
  split.
  - unfold validate_dependencies. rewrite validate_fold_nil. intros [_ Hall].
    apply Hinv. now apply Hall.
  - unfold validate_dependencies. rewrite validate_fold_get. simpl.
    destruct (last_report rows rows (ID row)) as [toks|] eqn:El.
    + exists toks. split; [reflexivity|].
      destruct (last_report_Some _ _ _ _ El) as [r [_ [_ [_ Hne]]]]. exact Hne.
    + exfalso. apply Hinv. rewrite last_report_None in El. now apply El.
Qed.

Lemma X5_witness :
  validate_dependencies [mkRow "A" "a" None; mkRow "B" "b" (Some "A,")]%string <> [] /\
  exists toks,
    get (validate_dependencies [mkRow "A" "a" None; mkRow "B" "b" (Some "A,")]%string)
      "B"%string = Some toks /\ toks <> [].
Proof.
  apply (X5_blank_token_is_reported
           [mkRow "A" "a" None; mkRow "B" "b" (Some "A,")]%string
           (mkRow "B" "b" (Some "A,"%string)) EmptyString).
  - simpl. tauto.
  - simpl. tauto.
  - reflexivity.
  - simpl. intros [H|[H|[]]]; discriminate.
Defined.

(** ** The layer of a node is the length of the longest chain that ends there *)

Import Paths.

Lemma walk_snoc G k u w v : walk G k u w -> has_edge G w v -> walk G (S k) u v.
Proof.
  intros Hw He. induction Hw as [x|k a b c Hab _ IH].
  - apply walk_edge with v; [assumption | apply walk_here].
  - apply walk_edge with b; [assumption | now apply IH].
Qed.

Section LayerFacts.
Variable G : DiGraph.
Hypothesis Hwf : wf G.
Variable layers : dict nat.
Hypothesis Hlayered : forall v, In v (nodes G) -> layered G layers v.

(** Along a chain of [k] edges the layer rises by [k] at least. *)
Lemma walk_rises k u v :
  walk G k u v -> In v (nodes G) ->
  forall lv, get layers v = Some lv ->
  exists lu, get layers u = Some lu /\ lu + k <= lv.
Proof.
  intros Hw. induction Hw as [x|k a b c Hab _ IH]; intros Hv lv Hlv.
  - exists lv. split; [assumption | lia].
  - destruct (IH Hv lv Hlv) as [lb [Hlb Hle]].
    assert (Hp : In a (predecessors G b)) by now apply has_edge_predecessors.
    destruct (predecessors_in_nodes G Hwf a b Hp) as [_ Hb].
    destruct (layered_above G layers a b (Hlayered b Hb) Hp) as [la [lb' [Hla [Hlb' Hlt]]]].
    exists la. split; [assumption|]. assert (lb' = lb) by congruence. lia.
Qed.

(** A node above layer 0 has a predecessor one layer below. *)
Lemma layer_below v m :
  In v (nodes G) -> get layers v = Some (S m) ->
  exists p, has_edge G p v /\ In p (nodes G) /\ get layers p = Some m.
Proof.
  intros Hv Hg. destruct (Hlayered v Hv) as [lv [ls [Hg' [Hls Hlv]]]].
  assert (lv = S m) by congruence. subst lv.
  destruct ls as [|l ls]; [discriminate|].
  pose proof (layers_of_Forall2 _ _ _ Hls) as HF.
  destruct (Forall2_pick_r _ _ _ (list_max (l :: ls)) HF) as [p [Hp Hgp]].
  { apply list_max_In. discriminate. }
  exists p. split; [now apply has_edge_predecessors|].
  split; [now destruct (predecessors_in_nodes G Hwf p v Hp)|].
  rewrite Hgp. f_equal. lia.
Qed.

Lemma layer_walk : forall l v,
  In v (nodes G) -> get layers v = Some l -> exists u, walk G l u v.
Proof.
  induction l as [|m IH]; intros v Hv Hg.
  - exists v. apply walk_here.
  - destruct (layer_below v m Hv Hg) as [p [Hpv [Hp Hgp]]].
    destruct (IH p Hp Hgp) as [u Hu]. exists u. now apply walk_snoc with p.
Qed.

Lemma layer_every_level : forall l v k,
  In v (nodes G) -> get layers v = Some l -> k <= l ->
  exists u, In u (nodes G) /\ get layers u = Some k.
Proof.
  induction l as [|m IH]; intros v k Hv Hg Hk.
  - exists v. assert (k = 0) by lia. subst k. auto.
  - destruct (Nat.eq_dec k (S m)) as [->|Hne]; [now exists v|].
    destruct (layer_below v m Hv Hg) as [p [_ [Hp Hgp]]].
    apply (IH p k Hp Hgp). lia.
Qed.

(** Nodes on [n] different layers are [n] nodes. *)
Lemma levels_bound : forall n,
  (forall k, k < n -> exists u, In u (nodes G) /\ get layers u = Some k) ->
  n <= length (nodes G).
Proof.
  intros n Hlev.
  assert (Hus : exists us, length us = n /\ NoDup us /\ incl us (nodes G) /\
                  forall u, In u us -> exists k, k < n /\ get layers u = Some k).
  { induction n as [|n IH].
    - exists []. repeat split; [constructor | intros x [] | intros u []].
    - destruct IH as [us [Hlen [Hnd [Hincl Hk]]]]; [intros k Hk; apply Hlev; lia|].
      destruct (Hlev n (Nat.lt_succ_diag_r n)) as [u [Hu Hgu]].
      exists (u :: us). split; [simpl; now rewrite Hlen|]. split.
      + constructor; [|assumption]. intros Hin. destruct (Hk u Hin) as [k [Hlt Hgk]].
        rewrite Hgu in Hgk. injection Hgk as <-. lia.
      + split.
        * intros x [<-|Hx]; auto.
        * intros x [<-|Hx]; [exists n; auto|].
          destruct (Hk x Hx) as [k [Hlt Hgk]]. exists k. auto. }
  destruct Hus as [us [Hlen [Hnd [Hincl _]]]]. rewrite <- Hlen.
  now apply NoDup_incl_length.
Qed.

End LayerFacts.

(** X6: on a graph with no cycle the layer of a node is the number of edges
    of the longest chain of dependencies that ends at the node: a chain of
    that length ends there, and no longer one. *)
Theorem X6_layer_is_longest_chain :
  forall G : DiGraph,
    wf G -> acyclic G ->
    exists layers,
      assign_layers G = Ok layers /\
      forall v, In v (nodes G) ->
        exists lv,
          get layers v = Some lv /\
          (exists u, walk G lv u v) /\
          (forall k u, walk G k u v -> k <= lv).
Proof.
  intros G Hwf Hacyc.
  destruct (assign_layers_spec G Hwf) as [[_ [layers [Ha [_ [Hk Hl]]]]]|[Hc _]];
    [|contradiction].
  exists layers. split; [assumption|]. intros v Hv.
  destruct (Hl v Hv) as [lv [ls [Hg _]]]. exists lv. split; [assumption|]. split.
  - now apply (layer_walk G Hwf layers Hl lv v).
  - intros k u Hw. destruct (walk_rises G Hwf layers Hl k u v Hw Hv lv Hg) as [lu [_ Hle]]. lia.
Qed.

Lemma X6_witness :
  exists layers,
    assign_layers (fst (build_dependency_graph (process_jobs_from_input scenario_A)))
      = Ok layers /\
    forall v,
      In v (nodes (fst (build_dependency_graph (process_jobs_from_input scenario_A)))) ->
      exists lv,
        get layers v = Some lv /\
        (exists u,
           walk (fst (build_dependency_graph (process_jobs_from_input scenario_A))) lv u v) /\
        (forall k u,
           walk (fst (build_dependency_graph (process_jobs_from_input scenario_A))) k u v ->
           k <= lv).
Proof.
  apply (X6_layer_is_longest_chain
           (fst (build_dependency_graph (process_jobs_from_input scenario_A)))).
  - apply build_dependency_graph_wf.
  - apply acyclic_by_rank_edges with letter_rank. vm_compute. reflexivity.
Defined.

(** X7: on a graph with no cycle the layers in use have no gap: below the
    layer of a node every layer down to 0 is the layer of some node, so a
    layer is smaller than the number of nodes. *)
Theorem X7_layers_have_no_gap :
  forall G : DiGraph,
    wf G -> acyclic G ->
    exists layers,
      assign_layers G = Ok layers /\
      forall v lv, get layers v = Some lv ->
        lv < length (nodes G) /\
        forall k, k <= lv -> exists u, In u (nodes G) /\ get layers u = Some k.
Proof.
  intros G Hwf Hacyc.
  destruct (assign_layers_spec G Hwf) as [[_ [layers [Ha [_ [Hk Hl]]]]]|[Hc _]];
    [|contradiction].
  exists layers. split; [assumption|]. intros v lv Hg.
  assert (Hv : In v (nodes G)) by (apply Hk; now apply get_Some_keys with lv).
  assert (Hlev : forall k, k <= lv -> exists u, In u (nodes G) /\ get layers u = Some k).
  { intros k Hle. now apply (layer_every_level G Hwf layers Hl lv v k). }
  split; [|exact Hlev].
  apply (levels_bound G layers (S lv)). intros k Hlt. apply Hlev. lia.
Qed.

Lemma X7_witness :
  exists layers,
    assign_layers (fst (build_dependency_graph (process_jobs_from_input scenario_D)))
      = Ok layers /\
    forall v lv, get layers v = Some lv ->
      lv < length (nodes (fst (build_dependency_graph (process_jobs_from_input scenario_D)))) /\
      forall k, k <= lv ->
        exists u,
          In u (nodes (fst (build_dependency_graph (process_jobs_from_input scenario_D)))) /\
          get layers u = Some k.
Proof.
  apply (X7_layers_have_no_gap
           (fst (build_dependency_graph (process_jobs_from_input scenario_D)))).
  - apply build_dependency_graph_wf.
  - apply acyclic_by_rank_edges with letter_rank. vm_compute. reflexivity.
Defined.

(** ** The ordered table *)

Lemma visualize_spaced_D :
  visualize_jobs (fun c => c) spaced_D "Top to Bottom" = Ok (spaced_D_table, spaced_D_drawing).
Proof. vm_compute. reflexivity. Qed.

Lemma In_ordered_table names layers0 l id n :
  NoDup (keys layers0) ->
  In (l, id, n) (ordered_table names layers0) <->
  exists l0, get layers0 id = Some l0 /\ l = l0 + 1 /\ n = get names id.
Proof.
  intros Hnd. unfold ordered_table. rewrite in_map_iff. split.
  - intros [[id' l'] [[= <- <- <-] Hin]].
    apply (Permutation_in _ (sorted_by_layer_perm _)) in Hin.
    apply in_map_iff in Hin. destruct Hin as [[id0 l0] [[= <- <-] Hin]].
    exists l0. split; [now apply In_get_NoDup | auto].
  - intros [l0 [Hg [-> ->]]]. exists (id, l0 + 1). split; [reflexivity|].
    apply (Permutation_in _ (Permutation_sym (sorted_by_layer_perm _))).
    apply in_map_iff. exists (id, l0). split; [reflexivity | now apply get_Some_In].
Qed.

Lemma length_ordered_table names layers0 :
  length (ordered_table names layers0) = length layers0.
Proof.
  unfold ordered_table. rewrite length_map.
  rewrite (Permutation_length (sorted_by_layer_perm _)). apply length_map.
Qed.

(** What a successful call knows about the layers it used. *)
Lemma visualize_jobs_layers shuffle rows o table drawing :
  visualize_jobs shuffle rows o = Ok (table, drawing) ->
  let built := build_dependency_graph (process_jobs_from_input rows) in
  exists layers0,
    assign_layers (fst built) = Ok layers0 /\
    table = ordered_table (snd built) layers0 /\
    NoDup (keys layers0) /\
    (forall v, In v (keys layers0) <-> In v (nodes (fst built))).
Proof.
  intros Hviz built.
  destruct (visualize_jobs_Ok shuffle rows o table drawing Hviz) as [layers0 [Ha [Ht _]]].
  pose proof (build_dependency_graph_wf (process_jobs_from_input rows)) as Hwf.
  destruct (assign_layers_spec _ Hwf) as [[_ [layers [Ha' [Hnd [Hk _]]]]]|[_ Hr]].
  - exists layers0. assert (layers = layers0) as -> by (unfold built in Ha; congruence). auto.
  - unfold built in Ha. congruence.
Qed.

(** X8: the table that [visualize_jobs] returns has one row for each node
    of the built graph, and a row is (Layer, Job ID, Name) exactly when the
    layer of the ID is Layer - 1 and Name is the entry of the ID in
    [job_id_to_name], if any. *)
Theorem X8_table_has_a_row_for_each_node :
  forall (shuffle : list string -> list string) (jobs_df : list Row) (orientation : string)
         (table : list TableRow) (drawing : Drawing),
    visualize_jobs shuffle jobs_df orientation = Ok (table, drawing) ->
    let G := fst (build_dependency_graph (process_jobs_from_input jobs_df)) in
    let names := snd (build_dependency_graph (process_jobs_from_input jobs_df)) in
    exists layers,
      assign_layers G = Ok layers /\
      length table = length (nodes G) /\
      Permutation (map (fun r : TableRow => snd (fst r)) table) (nodes G) /\
      forall l id n,
        In (l, id, n) table <->
        exists l0, get layers id = Some l0 /\ l = l0 + 1 /\ n = get names id.
Proof.
  intros shuffle rows o table drawing Hviz G names.
  destruct (visualize_jobs_layers shuffle rows o table drawing Hviz)
    as [layers0 [Ha [Ht [Hnd Hk]]]].
  fold G in Ha, Hk. fold names in Ht.
  pose proof (build_dependency_graph_wf (process_jobs_from_input rows)) as Hwf. fold G in Hwf.
  assert (Hperm : Permutation (keys layers0) (nodes G)).
  { apply NoDup_Permutation; [assumption | apply (wf_nodes Hwf) | assumption]. }
  exists layers0. split; [assumption|]. subst table. split.
  - rewrite length_ordered_table. rewrite <- (Permutation_length Hperm).
    unfold keys. now rewrite length_map.
  - split.
    + now rewrite ordered_table_ids.
    + intros l id n. now apply In_ordered_table.
Qed.

Lemma X8_witness :
  exists layers,
    assign_layers (fst (build_dependency_graph (process_jobs_from_input spaced_D))) = Ok layers /\
    length spaced_D_table =
      length (nodes (fst (build_dependency_graph (process_jobs_from_input spaced_D)))) /\
    Permutation (map (fun r : TableRow => snd (fst r)) spaced_D_table)
      (nodes (fst (build_dependency_graph (process_jobs_from_input spaced_D)))) /\
    forall l id n,
      In (l, id, n) spaced_D_table <->
      exists l0,
        get layers id = Some l0 /\ l = l0 + 1 /\
        n = get (snd (build_dependency_graph (process_jobs_from_input spaced_D))) id.
Proof.
  exact (X8_table_has_a_row_for_each_node (fun c => c) spaced_D "Top to Bottom"
           spaced_D_table spaced_D_drawing visualize_spaced_D).
Defined.

(** *** The order of the rows *)

Import TableOrder.

Lemma insert_by_layer_sorted x l :
  StronglySorted by_layer l -> StronglySorted by_layer (insert_by_layer x l).
Proof.
  induction l as [|y l IH]; intros Hs; simpl.
  - repeat constructor.
  - inversion Hs as [|? ? Hl Hy]; subst. destruct (snd x <=? snd y) eqn:E.
    + apply Nat.leb_le in E. constructor; [assumption|]. constructor; [exact E|].
      apply Forall_forall. intros z Hz. rewrite Forall_forall in Hy.
      specialize (Hy z Hz). unfold by_layer in *. lia.
    + apply Nat.leb_gt in E. constructor; [now apply IH|].
      apply (Permutation_Forall (Permutation_sym (insert_by_layer_perm x l))).
      constructor; [unfold by_layer; lia | assumption].
Qed.

Lemma sorted_by_layer_sorted l : StronglySorted by_layer (sorted_by_layer l).
Proof.
  induction l as [|x l IH]; simpl; [constructor | now apply insert_by_layer_sorted].
Qed.

(** Among the items of one layer the sort keeps the order they came in. *)
Lemma insert_by_layer_stable k x l :
  filter (fun e : string * nat => snd e =? k) (insert_by_layer x l) =
  filter (fun e : string * nat => snd e =? k) (x :: l).
Proof.
  induction l as [|y l IH]; simpl; [reflexivity|].
  destruct (snd x <=? snd y) eqn:E; [reflexivity|].
  apply Nat.leb_gt in E. simpl. rewrite IH. simpl.
  destruct (snd x =? k) eqn:Ex, (snd y =? k) eqn:Ey; try reflexivity.
  apply Nat.eqb_eq in Ex, Ey. lia.
Qed.

Lemma sorted_by_layer_stable k l :
  filter (fun e : string * nat => snd e =? k) (sorted_by_layer l) =
  filter (fun e : string * nat => snd e =? k) l.
Proof.
  induction l as [|x l IH]; simpl; [reflexivity|].
  rewrite insert_by_layer_stable. simpl. now rewrite IH.
Qed.

Lemma filter_map_swap {A B} (p : B -> bool) (g : A -> B) l :
  filter p (map g l) = map g (filter (fun a => p (g a)) l).
Proof.
  induction l as [|a l IH]; simpl; [reflexivity|].
  destruct (p (g a)); simpl; now rewrite IH.
Qed.

Lemma StronglySorted_map_layer names l :
  StronglySorted by_layer l ->
  StronglySorted (fun r1 r2 : TableRow => fst (fst r1) <= fst (fst r2))
    (map (fun '(job_id, layer) => (layer, job_id, get names job_id)) l).
Proof.
  induction 1 as [|[i k] l Hs IH Hall]; simpl; constructor; [assumption|].
  apply Forall_forall. intros r Hr. apply in_map_iff in Hr.
  destruct Hr as [[i' k'] [<- Hin]]. rewrite Forall_forall in Hall.
  exact (Hall (i', k') Hin).
Qed.

(** X9: the rows of the table are in ascending order of Layer, and the rows
    of one layer are in the order in which [assign_layers] gave the nodes
    their layer (the order of the topological sort). *)
Theorem X9_table_is_sorted_and_stable :
  forall (shuffle : list string -> list string) (jobs_df : list Row) (orientation : string)
         (table : list TableRow) (drawing : Drawing),
    visualize_jobs shuffle jobs_df orientation = Ok (table, drawing) ->
    exists layers,
      assign_layers (fst (build_dependency_graph (process_jobs_from_input jobs_df)))
        = Ok layers /\
      StronglySorted (fun r1 r2 : TableRow => fst (fst r1) <= fst (fst r2)) table /\
      forall k,
        map (fun r : TableRow => snd (fst r))
          (filter (fun r : TableRow => fst (fst r) =? k + 1) table) =
        map fst (filter (fun e : string * nat => snd e =? k) layers).
Proof.
  intros shuffle rows o table drawing Hviz.
  destruct (visualize_jobs_Ok shuffle rows o table drawing Hviz) as [layers0 [Ha [Ht _]]].
  exists layers0. split; [assumption|]. subst table. unfold ordered_table. split.
  - apply StronglySorted_map_layer, sorted_by_layer_sorted.
  - intros k. rewrite filter_map_swap. rewrite map_map.
    rewrite (filter_ext _ (fun e : string * nat => snd e =? k + 1))
      by (now intros [i l]).
    rewrite sorted_by_layer_stable. rewrite filter_map_swap. rewrite map_map.
    rewrite (filter_ext _ (fun e : string * nat => snd e =? k)).
    + apply map_ext. now intros [i l].
    + intros [i l]. simpl. destruct (Nat.eqb_spec l k) as [->|Hne].
      * apply Nat.eqb_refl.
      * apply Nat.eqb_neq. lia.
Qed.

Lemma X9_witness :
  exists layers,
    assign_layers (fst (build_dependency_graph (process_jobs_from_input spaced_D)))
      = Ok layers /\
    StronglySorted (fun r1 r2 : TableRow => fst (fst r1) <= fst (fst r2)) spaced_D_table /\
    forall k,
      map (fun r : TableRow => snd (fst r))
        (filter (fun r : TableRow => fst (fst r) =? k + 1) spaced_D_table) =
      map fst (filter (fun e : string * nat => snd e =? k) layers).
Proof.
  exact (X9_table_is_sorted_and_stable (fun c => c) spaced_D "Top to Bottom"
           spaced_D_table spaced_D_drawing visualize_spaced_D).
Defined.

(** X10: a row of the table has no name exactly when its Job ID is the ID of
    no row of the data frame; such an ID is a dependency token of some row. *)
Theorem X10_row_without_name_is_no_job :
  forall (shuffle : list string -> list string) (jobs_df : list Row) (orientation : string)
         (table : list TableRow) (drawing : Drawing),
    visualize_jobs shuffle jobs_df orientation = Ok (table, drawing) ->
    forall l id n, In (l, id, n) table ->
      (n = None <-> ~ In id (map ID jobs_df)) /\
      (n = None -> exists row, In row jobs_df /\ In id (dependencies_of row)).
Proof.
  intros shuffle rows o table drawing Hviz l id n Hin.
  destruct (visualize_jobs_layers shuffle rows o table drawing Hviz)
    as [layers0 [Ha [Ht [Hnd Hk]]]].
  subst table. apply In_ordered_table in Hin; [|assumption].
  destruct Hin as [l0 [Hg [_ ->]]].
  assert (Hnone : get (snd (build_dependency_graph (process_jobs_from_input rows))) id = None
                  <-> ~ In id (map ID rows)).
  { rewrite get_None_keys. unfold build_dependency_graph.
    rewrite fold_add_job_name_keys. simpl. rewrite process_ids. tauto. }
  split; [exact Hnone|]. intros Hn. apply Hnone in Hn.
  assert (Hnode : In id (nodes (fst (build_dependency_graph (process_jobs_from_input rows))))).
  { apply Hk. now apply get_Some_keys with l0. }
  unfold build_dependency_graph in Hnode. rewrite fold_add_job_nodes in Hnode by apply wf_empty.
  simpl in Hnode. destruct Hnode as [[]|[i [nm [deps [Hjob Hcase]]]]].
  apply In_process_jobs in Hjob. destruct Hjob as [row [Hrow [Hi [_ Hd]]]].
  destruct Hcase as [->|[Hdep _]].
  - exfalso. apply Hn. rewrite <- Hi. now apply in_map.
  - exists row. split; [assumption | now rewrite Hd].
Qed.

Lemma X10_witness :
  ((@None string) = None <-> ~ In " B"%string (map ID spaced_D)) /\
  ((@None string) = None ->
   exists row, In row spaced_D /\ In " B"%string (dependencies_of row)).
Proof.
  apply (X10_row_without_name_is_no_job (fun c => c) spaced_D "Top to Bottom"
           spaced_D_table spaced_D_drawing visualize_spaced_D 1 " B"%string None).
  simpl. tauto.
Defined.

(** ** The drawing *)

Lemma dict_of_untouched {V} (f : nat -> string -> result V) : forall ns d d' n,
  dict_of f ns d = Ok d' -> ~ In n (map snd ns) -> get d' n = get d n.
Proof.
  induction ns as [|[i0 n0] ns IH]; intros d d' n; simpl.
  - now intros [= <-].
  - destruct (f i0 n0) as [v0| |]; simpl; try discriminate.
    intros H Hn. rewrite (IH _ _ _ H) by tauto. apply get_set_other. tauto.
Qed.

(** A dictionary comprehension over distinct keys holds, under each key, the
    value computed for it. *)
Lemma dict_of_lookup {V} (f : nat -> string -> result V) : forall ns d d',
  dict_of f ns d = Ok d' -> NoDup (map snd ns) ->
  forall i n, In (i, n) ns -> exists v, f i n = Ok v /\ get d' n = Some v.
Proof.
  induction ns as [|[i0 n0] ns IH]; intros d d'; simpl; [contradiction|].
  destruct (f i0 n0) as [v0| |] eqn:Ef; simpl; try discriminate.
  intros H Hnd i n Hin. inversion Hnd as [|? ? Hni Hnd']; subst.
  destruct Hin as [[= <- <-]|Hin].
  - exists v0. split; [assumption|].
    rewrite (dict_of_untouched f ns _ d' n0 H Hni). apply get_set_same.
  - now apply (IH _ _ H Hnd').
Qed.

Lemma list_of_lookup {V} (f : string -> result V) : forall ns vs,
  list_of f ns = Ok vs ->
  forall i n, nth_error ns i = Some n -> exists v, f n = Ok v /\ nth_error vs i = Some v.
Proof.
  induction ns as [|n0 ns IH]; intros vs; simpl.
  - intros _ [|i] n; discriminate.
  - destruct (f n0) as [v0| |] eqn:Ef; simpl; try discriminate.
    destruct (list_of f ns) as [vs0| |] eqn:El; simpl; try discriminate.
    intros [= <-] [|i] n; simpl.
    + intros [= <-]. now exists v0.
    + now apply IH.
Qed.

Lemma In_combine_seq {A} (l : list A) : forall s i x,
  In (i, x) (combine (seq s (length l)) l) <-> s <= i /\ nth_error l (i - s) = Some x.
Proof.
  induction l as [|y l IH]; intros s i x; simpl.
  - split; [contradiction|]. intros [_ H]. destruct (i - s); discriminate.
  - rewrite IH. split.
    + intros [[= <- <-]|[Hle Hn]].
      * split; [lia|]. now rewrite Nat.sub_diag.
      * split; [lia|]. replace (i - s) with (S (i - S s)) by lia. exact Hn.
    + intros [Hle Hn]. destruct (Nat.eq_dec i s) as [->|Hne].
      * rewrite Nat.sub_diag in Hn. simpl in Hn. injection Hn as <-. now left.
      * right. split; [lia|]. replace (i - s) with (S (i - S s)) in Hn by lia. exact Hn.
Qed.

Lemma In_enumerate {A} (l : list A) i x :
  In (i, x) (enumerate l) <-> nth_error l i = Some x.
Proof.
  unfold enumerate. rewrite In_combine_seq. rewrite Nat.sub_0_r. split; [tauto|].
  intros H. split; [lia | assumption].
Qed.

(** What a drawing that was made holds. *)
Lemma draw_layered_graph_Ok shuffle G layers names o drawing :
  draw_layered_graph shuffle G layers names o = Ok drawing ->
  positions G layers o = Ok (Some (pos drawing)) /\
  list_of (fun node =>
    l <- item layers node ;;
    Ok (nth (l mod length (shuffle base_colors)) (shuffle base_colors) EmptyString))
    (nodes G) = Ok (node_colors drawing) /\
  dict_of (fun _ node =>
    Ok (match get names node with Some name => name | None => node end))
    (enumerate (nodes G)) [] = Ok (labels drawing).
Proof.
  unfold draw_layered_graph.
  destruct (positions G layers o) as [p| |]; simpl; try discriminate.
  destruct (list_of _ (nodes G)) as [colors| |]; simpl; try discriminate.
  destruct (dict_of _ (enumerate (nodes G)) []) as [lbls| |]; simpl; try discriminate.
  destruct p as [p|]; [|discriminate]. intros [= <-]. auto.
Qed.

Lemma item_Ok layers node l : item layers node = Ok l <-> get layers node = Some l.
Proof.
  unfold item. destruct (get layers node); split; congruence.
Qed.

(** X11: the drawing places the i-th node of [G.nodes()] by its layer and
    its rank i, on the axes the orientation names: (i, -layer) top to bottom,
    (i, layer) bottom to top, (layer, -i) left to right, (-layer, -i) right
    to left; its colour is the colour of its layer modulo the number of
    colours, and its label its name, or the node itself when it has none. *)
Theorem X11_drawing_places_nodes_by_layer :
  forall (shuffle : list string -> list string) (G : DiGraph) (layers : dict nat)
         (names : dict string) (orientation : string) (drawing : Drawing),
    wf G ->
    draw_layered_graph shuffle G layers names orientation = Ok drawing ->
    forall i node, nth_error (nodes G) i = Some node ->
      exists l,
        get layers node = Some l /\
        (orientation = "Top to Bottom"%string ->
           get (pos drawing) node = Some (Z.of_nat i, - Z.of_nat l)%Z) /\
        (orientation = "Bottom to Top"%string ->
           get (pos drawing) node = Some (Z.of_nat i, Z.of_nat l)) /\
        (orientation = "Left to Right"%string ->
           get (pos drawing) node = Some (Z.of_nat l, - Z.of_nat i)%Z) /\
        (orientation = "Right to Left"%string ->
           get (pos drawing) node = Some (- Z.of_nat l, - Z.of_nat i)%Z) /\
        nth_error (node_colors drawing) i =
          Some (nth (l mod length (shuffle base_colors)) (shuffle base_colors) EmptyString) /\
        get (labels drawing) node =
          Some (match get names node with Some name => name | None => node end).
Proof.
  intros shuffle G layers names o drawing Hwf Hdraw i node Hnth.
  destruct (draw_layered_graph_Ok shuffle G layers names o drawing Hdraw) as [Hp [Hc Hl]].
  assert (Hnd : NoDup (map snd (enumerate (nodes G)))).
  { rewrite map_snd_enumerate. apply (wf_nodes Hwf). }
  assert (Hin : In (i, node) (enumerate (nodes G))) by now apply In_enumerate.
  destruct (list_of_lookup _ _ _ Hc i node Hnth) as [c [Hfc Hnc]].
  destruct (item layers node) as [l| |] eqn:Ei; simpl in Hfc; try discriminate.
  apply item_Ok in Ei. exists l. split; [assumption|].
  assert (Hpos : forall f : nat -> string -> result (Z * Z),
            dict_of f (enumerate (nodes G)) [] = Ok (pos drawing) ->
            forall v, f i node = Ok v -> get (pos drawing) node = Some v).
  { intros f Hf v Hv. destruct (dict_of_lookup f _ _ _ Hf Hnd i node Hin) as [v' [Hv' Hg]].
    congruence. }
  assert (Hitem : item layers node = Ok l) by now apply item_Ok.
  unfold positions in Hp.
  repeat split.
  - intros ->. simpl in Hp.
    destruct (dict_of _ (enumerate (nodes G)) []) as [p| |] eqn:Ed; simpl in Hp; try discriminate.
    injection Hp as ->. apply (Hpos _ Ed). now rewrite Hitem.
  - intros ->. simpl in Hp.
    destruct (dict_of _ (enumerate (nodes G)) []) as [p| |] eqn:Ed; simpl in Hp; try discriminate.
    injection Hp as ->. apply (Hpos _ Ed). now rewrite Hitem.
  - intros ->. simpl in Hp.
    destruct (dict_of _ (enumerate (nodes G)) []) as [p| |] eqn:Ed; simpl in Hp; try discriminate.
    injection Hp as ->. apply (Hpos _ Ed). now rewrite Hitem.
  - intros ->. simpl in Hp.
    destruct (dict_of _ (enumerate (nodes G)) []) as [p| |] eqn:Ed; simpl in Hp; try discriminate.
    injection Hp as ->. apply (Hpos _ Ed). now rewrite Hitem.
  - rewrite Hnc. congruence.
  - rewrite (dict_of_get _ _ _ _ Hl node). rewrite map_snd_enumerate.
    assert (Hm : mem node (nodes G) = true).
    { apply mem_In. now apply nth_error_In with i. }
    now rewrite Hm.
Qed.

Lemma X11_witness :
  exists l,
    get scenario_A_shifted "B"%string = Some l /\
    ("Left to Right"%string = "Top to Bottom"%string ->
       get (pos scenario_A_drawing) "B"%string = Some (Z.of_nat 1, - Z.of_nat l)%Z) /\
    ("Left to Right"%string = "Bottom to Top"%string ->
       get (pos scenario_A_drawing) "B"%string = Some (Z.of_nat 1, Z.of_nat l)) /\
    ("Left to Right"%string = "Left to Right"%string ->
       get (pos scenario_A_drawing) "B"%string = Some (Z.of_nat l, - Z.of_nat 1)%Z) /\
    ("Left to Right"%string = "Right to Left"%string ->
       get (pos scenario_A_drawing) "B"%string = Some (- Z.of_nat l, - Z.of_nat 1)%Z) /\
    nth_error (node_colors scenario_A_drawing) 1 =
      Some (nth (l mod length base_colors) base_colors EmptyString) /\
    get (labels scenario_A_drawing) "B"%string =
      Some (match get (snd (build_dependency_graph (process_jobs_from_input scenario_A)))
                    "B"%string with
            | Some name => name
            | None => "B"%string
            end).
Proof.
  apply (X11_drawing_places_nodes_by_layer (fun c => c)
           (fst (build_dependency_graph (process_jobs_from_input scenario_A)))
           scenario_A_shifted
           (snd (build_dependency_graph (process_jobs_from_input scenario_A)))
           "Left to Right" scenario_A_drawing).
  - apply build_dependency_graph_wf.
  - vm_compute. reflexivity.
  - vm_compute. reflexivity.
Defined.

Lemma positions_unbound G layers o :
  ~ In o orientations -> positions G layers o = Ok None.
Proof.
  intros Hno. unfold positions, orientations in *. simpl in Hno.
  destruct (String.eqb_spec o "Top to Bottom") as [->|_]; [tauto|].
  destruct (String.eqb_spec o "Bottom to Top") as [->|_]; [tauto|].
  destruct (String.eqb_spec o "Left to Right") as [->|_]; [tauto|].
  destruct (String.eqb_spec o "Right to Left") as [->|_]; [tauto|].
  reflexivity.
Qed.

(** X12: with an orientation that is none of the four strings, and a graph
    with no cycle, [visualize_jobs] computes the table and then raises
    [UnboundLocalError] in the drawing, where [pos] was never bound. *)
Theorem X12_unknown_orientation_raises :
  forall (shuffle : list string -> list string) (jobs_df : list Row) (orientation : string),
    acyclic (fst (build_dependency_graph (process_jobs_from_input jobs_df))) ->
    ~ In orientation orientations ->
    visualize_jobs shuffle jobs_df orientation = Raise UnboundLocalError.
Proof.
  intros shuffle rows o Hacyc Hno.
  pose proof (build_dependency_graph_wf (process_jobs_from_input rows)) as Hwf.
  unfold visualize_jobs.
  destruct (build_dependency_graph (process_jobs_from_input rows)) as [G names]. simpl in *.
  destruct (assign_layers_spec G Hwf) as [[_ [layers0 [Ha [Hnd [Hk Hl]]]]]|[Hcyc _]];
    [|contradiction].
  rewrite Ha. simpl. unfold draw_layered_graph.
  rewrite (positions_unbound G _ o Hno). simpl.
  assert (Hincl : incl (nodes G) (keys (map (fun '(node, layer) => (node, layer + 1)) layers0))).
  { intros v Hv. rewrite keys_shift. now apply Hk. }
  match goal with
  | |- context [list_of ?f ?ns] => destruct (list_of_total f ns) as [colors Hc]
  end.
  { intros n Hn. destruct (item_total _ n (Hincl n Hn)) as [l Hi]. rewrite Hi. simpl. eauto. }
  rewrite Hc. simpl.
  match goal with
  | |- context [dict_of ?f ?ns ?d] => destruct (dict_of_total f ns d) as [lbls Hlb]
  end.
  { intros i n _. eauto. }
  rewrite Hlb. reflexivity.
Qed.

Lemma X12_witness :
  visualize_jobs (fun c => c) scenario_A "Diagonal" = Raise UnboundLocalError.
Proof.
  apply (X12_unknown_orientation_raises (fun c => c) scenario_A "Diagonal").
  - apply acyclic_by_rank_edges with letter_rank. vm_compute. reflexivity.
  - simpl. intros [H|[H|[H|[H|[]]]]]; discriminate.
Defined.

(** ** The branches of main *)

Lemma dropna_nil edited :
  (forall r, In r edited -> raw_ID r = None \/ raw_Name r = None) <-> dropna edited = [].
Proof.
  induction edited as [|r edited IH]; simpl.
  - split; [reflexivity | intros _ r []].
  - destruct (raw_ID r) as [i|] eqn:Ei; [destruct (raw_Name r) as [n|] eqn:En|].
    + split; [|discriminate]. intros H. destruct (H r (or_introl eq_refl)); congruence.
    + rewrite <- IH. split.
      * intros H x Hx. apply H. now right.
      * intros H x [<-|Hx]; auto.
    + rewrite <- IH. split.
      * intros H x Hx. apply H. now right.
      * intros H x [<-|Hx]; auto.
Qed.

Lemma generate_valid session edited :
  dropna edited <> [] -> validate_dependencies (dropna edited) = [] ->
  generate session edited =
    (mkSession (dropna edited) true, [StSuccess "Jobs updated successfully."]).
Proof.
  intros Hne Hvalid. unfold generate. rewrite Hvalid.
  destruct (dropna edited); [congruence | reflexivity].
Qed.

(** X13: when every row of the edited table misses its ID or its name, a
    press of the button shows the message that asks for job details and
    changes nothing in the session, [jobs_updated] included: the rest of the
    run is what a run without a press shows for the session as it was. *)
Theorem X13_no_complete_row_keeps_the_session :
  forall (shuffle1 shuffle2 : list string -> list string) (session : Session)
         (edited : list RawRow) (orientation : string),
    (forall r, In r edited -> raw_ID r = None \/ raw_Name r = None) ->
    main shuffle1 shuffle2 session edited true orientation =
      (session,
       StError "Please enter job details and dependencies."
         :: snd (fst (main shuffle1 shuffle2 session edited false orientation)),
       snd (main shuffle1 shuffle2 session edited false orientation)) /\
    fst (fst (main shuffle1 shuffle2 session edited false orientation)) = session.
Proof.
  intros s1 s2 session edited o Hall. apply dropna_nil in Hall.
  unfold main, script, generate. rewrite Hall. simpl.
  destruct (show_jobs (visualize_jobs s1) (visualize_jobs s2) session o) as [shown fin].
  split; reflexivity.
Qed.

Lemma X13_witness :
  main (fun c => c) (fun c => c) (mkSession [] false)
    [mkRawRow None (Some "Compile"%string) None] true "Top to Bottom" =
    (mkSession [] false,
     StError "Please enter job details and dependencies."
       :: snd (fst (main (fun c => c) (fun c => c) (mkSession [] false)
                      [mkRawRow None (Some "Compile"%string) None] false "Top to Bottom")),
     snd (main (fun c => c) (fun c => c) (mkSession [] false)
            [mkRawRow None (Some "Compile"%string) None] false "Top to Bottom")) /\
  fst (fst (main (fun c => c) (fun c => c) (mkSession [] false)
              [mkRawRow None (Some "Compile"%string) None] false "Top to Bottom"))
    = mkSession [] false.
Proof.
  apply (X13_no_complete_row_keeps_the_session (fun c => c) (fun c => c) (mkSession [] false)
           [mkRawRow None (Some "Compile"%string) None] "Top to Bottom").
  intros r [<-|[]]. now left.
Defined.

(** X14: when the edited table has a complete row, its report is empty and
    its graph has no cycle, a press of the button stores the table, shows the
    success message, the ordered table and the drawing, and ends normally;
    every later run without a press, with any of the four orientations and
    whatever the editor holds, shows the same ordered table again and leaves
    the session as it is. *)
Theorem X14_valid_table_is_stored_and_shown :
  forall (shuffle1 shuffle2 : list string -> list string) (session : Session)
         (edited : list RawRow) (orientation : string),
    dropna edited <> [] ->
    validate_dependencies (dropna edited) = [] ->
    acyclic (fst (build_dependency_graph (process_jobs_from_input (dropna edited)))) ->
    In orientation orientations ->
    exists table drawing,
      main shuffle1 shuffle2 session edited true orientation =
        (mkSession (dropna edited) true,
         [StSuccess "Jobs updated successfully."; StSubheader "Ordered Jobs for Execution";
          StDataframe table; StPyplot drawing],
         Ok tt) /\
      forall (shuffle1' shuffle2' : list string -> list string) (edited' : list RawRow)
             (orientation' : string),
        In orientation' orientations ->
        exists drawing',
          main shuffle1' shuffle2' (mkSession (dropna edited) true) edited' false orientation' =
            (mkSession (dropna edited) true,
             [StSubheader "Ordered Jobs for Execution"; StDataframe table; StPyplot drawing'],
             Ok tt).
Proof.
  intros s1 s2 session edited o Hne Hvalid Hacyc Ho.
  set (df := dropna edited) in *.
  assert (Hshow : forall (t1 t2 : list string -> list string) (o' : string),
            In o' orientations ->
            exists layers0 d,
              assign_layers (fst (build_dependency_graph (process_jobs_from_input df)))
                = Ok layers0 /\
              show_jobs (visualize_jobs t1) (visualize_jobs t2) (mkSession df true) o' =
                ([StSubheader "Ordered Jobs for Execution";
                  StDataframe (ordered_table
                                 (snd (build_dependency_graph (process_jobs_from_input df)))
                                 layers0);
                  StPyplot d], Ok tt)).
  { intros t1 t2 o' Ho'.
    assert (Htb : In "Top to Bottom"%string orientations) by (simpl; tauto).
    destruct (visualize_jobs_cases t1 df "Top to Bottom" Htb)
      as [[Hc _]|[_ [l1 [p1 [c1 [b1 [Ha1 [Hv1 _]]]]]]]]; [contradiction|].
    destruct (visualize_jobs_cases t2 df o' Ho')
      as [[Hc _]|[_ [l2 [p2 [c2 [b2 [Ha2 [Hv2 _]]]]]]]]; [contradiction|].
    exists l1, (mkDrawing p2 c2 b2). split; [assumption|].
    unfold show_jobs. simpl. rewrite Hv1, Hv2. reflexivity. }
  destruct (Hshow s1 s2 o Ho) as [layers0 [d [Ha Hs]]].
  exists (ordered_table (snd (build_dependency_graph (process_jobs_from_input df))) layers0), d.
  split.
  - unfold main, script. fold df. rewrite (generate_valid session edited Hne Hvalid).
    fold df. rewrite Hs. reflexivity.
  - intros t1 t2 edited' o' Ho'. destruct (Hshow t1 t2 o' Ho') as [layers1 [d' [Ha' Hs']]].
    assert (layers1 = layers0) as -> by congruence.
    exists d'. unfold main, script. rewrite Hs'. reflexivity.
Qed.

Lemma X14_witness :
  exists table drawing,
    main (fun c => c) (fun c => c) (mkSession [] false) (edited_from scenario_D) true
      "Left to Right" =
      (mkSession (dropna (edited_from scenario_D)) true,
       [StSuccess "Jobs updated successfully."; StSubheader "Ordered Jobs for Execution";
        StDataframe table; StPyplot drawing],
       Ok tt) /\
    forall (shuffle1' shuffle2' : list string -> list string) (edited' : list RawRow)
           (orientation' : string),
      In orientation' orientations ->
      exists drawing',
        main shuffle1' shuffle2' (mkSession (dropna (edited_from scenario_D)) true) edited'
          false orientation' =
          (mkSession (dropna (edited_from scenario_D)) true,
           [StSubheader "Ordered Jobs for Execution"; StDataframe table; StPyplot drawing'],
           Ok tt).
Proof.
  apply (X14_valid_table_is_stored_and_shown (fun c => c) (fun c => c) (mkSession [] false)
           (edited_from scenario_D) "Left to Right").
  - vm_compute. discriminate.
  - vm_compute. reflexivity.
  - apply acyclic_by_rank_edges with letter_rank. vm_compute. reflexivity.
  - simpl. tauto.
Defined.

(** X15: the validator does not look for cycles: when the edited table has a
    complete row, an empty report and a graph with a cycle, a press of the
    button stores the table and shows the success message before the run
    ends with [NetworkXUnfeasible]; every later run without a press ends with
    the same exception and shows nothing. *)
Theorem X15_cyclic_table_is_stored_then_raises :
  forall (shuffle1 shuffle2 : list string -> list string) (session : Session)
         (edited : list RawRow) (orientation : string),
    dropna edited <> [] ->
    validate_dependencies (dropna edited) = [] ->
    has_cycle (fst (build_dependency_graph (process_jobs_from_input (dropna edited)))) ->
    main shuffle1 shuffle2 session edited true orientation =
      (mkSession (dropna edited) true, [StSuccess "Jobs updated successfully."],
       Raise NetworkXUnfeasible) /\
    forall (shuffle1' shuffle2' : list string -> list string) (edited' : list RawRow)
           (orientation' : string),
      main shuffle1' shuffle2' (mkSession (dropna edited) true) edited' false orientation' =
        (mkSession (dropna edited) true, [], Raise NetworkXUnfeasible).
Proof.
  intros s1 s2 session edited o Hne Hvalid Hcyc.
  assert (Hshow : forall (t1 t2 : list string -> list string) (o' : string),
            show_jobs (visualize_jobs t1) (visualize_jobs t2)
              (mkSession (dropna edited) true) o' = ([], Raise NetworkXUnfeasible)).
  { intros t1 t2 o'. unfold show_jobs. simpl.
    now rewrite (visualize_jobs_cycle t1 (dropna edited) "Top to Bottom" Hcyc). }
  split.
  - unfold main, script. rewrite (generate_valid session edited Hne Hvalid).
    rewrite Hshow. reflexivity.
  - intros t1 t2 edited' o'. unfold main, script. rewrite Hshow. reflexivity.
Qed.

Lemma X15_witness :
  main (fun c => c) (fun c => c) (mkSession scenario_A true) (edited_from scenario_C) true
    "Top to Bottom" =
    (mkSession (dropna (edited_from scenario_C)) true,
     [StSuccess "Jobs updated successfully."], Raise NetworkXUnfeasible) /\
  forall (shuffle1' shuffle2' : list string -> list string) (edited' : list RawRow)
         (orientation' : string),
    main shuffle1' shuffle2' (mkSession (dropna (edited_from scenario_C)) true) edited' false
      orientation' =
      (mkSession (dropna (edited_from scenario_C)) true, [], Raise NetworkXUnfeasible).
Proof.
  apply (X15_cyclic_table_is_stored_then_raises (fun c => c) (fun c => c)
           (mkSession scenario_A true) (edited_from scenario_C) "Top to Bottom").
  - vm_compute. discriminate.
  - vm_compute. reflexivity.
  - exists "A"%string. apply t_trans with "B"%string; apply t_step; vm_compute; tauto.
Defined.

(** ** Tokens that name no job, and the order of the table *)

(** X16: the builder makes a node of every non-empty token, also of one that
    is the ID of no job: such a token becomes a node with no name and the
    start of the edge to the job that lists it. When the report is empty this
    happens exactly with a token that has blanks around the ID of a job. *)
Theorem X16_token_that_is_no_job_becomes_a_node :
  forall (jobs_df : list Row) (row : Row) (tok : string),
    In row jobs_df -> In tok (dependencies_of row) -> tok <> EmptyString ->
    ~ In tok (map ID jobs_df) ->
    let built := build_dependency_graph (process_jobs_from_input jobs_df) in
    In tok (nodes (fst built)) /\
    has_edge (fst built) tok (ID row) /\
    get (snd built) tok = None /\
    (validate_dependencies jobs_df = [] ->
     strip tok <> tok /\ In (strip tok) (map ID jobs_df)).
Proof.
  intros rows row tok Hrow Htok Hne Hno built.
  assert (Hjob : In (ID row, Name row, dependencies_of row) (process_jobs_from_input rows)).
  { apply In_process_jobs. exists row. auto. }
  assert (Hedge : has_edge (fst built) tok (ID row)).
  { apply built_edge_iff. exists (Name row), (dependencies_of row). auto. }
  split; [|split; [assumption|split]].
  - pose proof (build_dependency_graph_wf (process_jobs_from_input rows)) as Hwf.
    apply has_edge_successors in Hedge; [|assumption].
    now destruct (wf_closed Hwf _ _ Hedge).
  - apply get_None_keys. unfold built, build_dependency_graph.
    rewrite fold_add_job_name_keys. simpl. rewrite process_ids. tauto.
  - intros Hvalid. unfold validate_dependencies in Hvalid.
    apply validate_fold_nil in Hvalid. destruct Hvalid as [_ Hall].
    pose proof (proj1 (invalid_tokens_nil rows row) (Hall row Hrow) tok Htok) as Hs.
    split; [|assumption]. intros Heq. apply Hno. now rewrite <- Heq.
Qed.

Lemma X16_witness :
  In " B"%string (nodes (fst (build_dependency_graph (process_jobs_from_input spaced_D)))) /\
  has_edge (fst (build_dependency_graph (process_jobs_from_input spaced_D)))
    " B"%string (ID (mkRow "C" "c" (Some "A, B"%string))) /\
  get (snd (build_dependency_graph (process_jobs_from_input spaced_D))) " B"%string = None /\
  (validate_dependencies spaced_D = [] ->
   strip " B"%string <> " B"%string /\ In (strip " B"%string) (map ID spaced_D)).
Proof.
  apply (X16_token_that_is_no_job_becomes_a_node spaced_D
           (mkRow "C" "c" (Some "A, B"%string)) " B"%string).
  - simpl. tauto.
  - simpl. tauto.
  - discriminate.
  - simpl. intros [H|[H|[H|[]]]]; discriminate.
Defined.

Lemma StronglySorted_before {A} (R : A -> A -> Prop) l1 a l2 :
  StronglySorted R (l1 ++ a :: l2) -> forall x, In x l1 -> R x a.
Proof.
  induction l1 as [|y l1 IH]; simpl; intros Hs x Hx; [contradiction|].
  inversion Hs as [|? ? Hs' Hall]; subst. destruct Hx as [->|Hx]; [|now apply IH].
  rewrite Forall_forall in Hall. apply Hall. apply in_app_iff. right. now left.
Qed.

(** In a list sorted by a key, an element with a smaller key stands before
    one with a greater key. *)
Lemma sorted_smaller_first {A} (key : A -> nat) l a b :
  StronglySorted (fun x y => key x <= key y) l ->
  In a l -> In b l -> key a < key b ->
  exists before middle after, l = before ++ a :: middle ++ b :: after.
Proof.
  intros Hs Ha Hb Hlt.
  destruct (in_split a l Ha) as [l1 [l2 ->]].
  apply in_app_iff in Hb. destruct Hb as [Hb|[->|Hb]].
  - pose proof (StronglySorted_before _ l1 a l2 Hs b Hb) as Hle. simpl in Hle. lia.
  - lia.
  - destruct (in_split b l2 Hb) as [m [after ->]]. now exists l1, m, after.
Qed.

(** X17: in the ordered table the row of a job stands after the row of each
    of its dependencies, with a greater Layer. *)
Theorem X17_dependencies_come_first_in_the_table :
  forall (shuffle : list string -> list string) (jobs_df : list Row) (orientation : string)
         (table : list TableRow) (drawing : Drawing),
    visualize_jobs shuffle jobs_df orientation = Ok (table, drawing) ->
    forall u v,
      has_edge (fst (build_dependency_graph (process_jobs_from_input jobs_df))) u v ->
      exists before lu nu middle lv nv after,
        table = before ++ (lu, u, nu) :: middle ++ (lv, v, nv) :: after /\ lu < lv.
Proof.
  intros shuffle rows o table drawing Hviz u v Huv.
  destruct (visualize_jobs_layers shuffle rows o table drawing Hviz)
    as [layers0 [Ha [Ht [Hnd Hk]]]].
  pose proof (build_dependency_graph_wf (process_jobs_from_input rows)) as Hwf.
  set (G := fst (build_dependency_graph (process_jobs_from_input rows))) in *.
  set (names := snd (build_dependency_graph (process_jobs_from_input rows))) in *.
  destruct (assign_layers_spec G Hwf) as [[_ [layers [Ha' [_ [_ Hl]]]]]|[_ Hr]]; [|congruence].
  assert (layers = layers0) as -> by congruence.
  assert (Hp : In u (predecessors G v)) by now apply has_edge_predecessors.
  destruct (predecessors_in_nodes G Hwf u v Hp) as [_ Hv].
  destruct (layered_above G layers0 u v (Hl v Hv) Hp) as [lu [lv [Hgu [Hgv Hlt]]]].
  assert (Hru : In (lu + 1, u, get names u) table).
  { subst table. apply In_ordered_table; [assumption|]. exists lu. auto. }
  assert (Hrv : In (lv + 1, v, get names v) table).
  { subst table. apply In_ordered_table; [assumption|]. exists lv. auto. }
  assert (Hs : StronglySorted (fun r1 r2 : TableRow => fst (fst r1) <= fst (fst r2)) table).
  { subst table. unfold ordered_table.
    apply StronglySorted_map_layer, sorted_by_layer_sorted. }
  destruct (sorted_smaller_first (fun r : TableRow => fst (fst r)) table _ _ Hs Hru Hrv)
    as [before [middle [after Heq]]]; [simpl; lia|].
  exists before, (lu + 1), (get names u), middle, (lv + 1), (get names v), after.
  split; [assumption | lia].
Qed.

Lemma X17_witness :
  exists before lu nu middle lv nv after,
    spaced_D_table = before ++ (lu, "A"%string, nu) :: middle ++ (lv, "C"%string, nv) :: after /\
    lu < lv.
Proof.
  apply (X17_dependencies_come_first_in_the_table (fun c => c) spaced_D "Top to Bottom"
           spaced_D_table spaced_D_drawing visualize_spaced_D "A"%string "C"%string).
  vm_compute. tauto.
Defined.

